(** * valve: byte-counting and byte-limiting I/O proxies

    A shallow embedding of the Go package [valve] (files [valve.go],
    [meter.go], [limit.go] and [internal/error.go]) together with the
    parts of Go's [io] and [errors] packages that the package calls.

    Conventions of the embedding:
    - [int64] values are integers of [Z]; every arithmetic result that Go
      stores in an [int64] is passed through [Int64.wrap].  Go's [int] is
      taken to be 64 bits wide, so [int64(n)] is the identity.
    - A byte slice is a [list byte]; its capacity is its length.
    - Endpoints (the [io.Reader], [io.Writer] and [io.Closer] values bound
      to a Meter) live in a shared store indexed by references, so two
      bindings of one object alias.  Every call of [Read], [Write] or
      [Close] on an endpoint is appended to the trace of the world.
    - An endpoint may have a [WriteTo] or a [ReadFrom] method of its own;
      [io.Copy] hands the copy to such a method when it finds one.
    - A run-time panic and an exhausted loop budget are results of their
      own ([Panic], [OutOfFuel]). *)

From Stdlib Require Import ZArith List Bool Lia String.
From Stdlib Require Import Strings.Byte.
From Stdlib Require DecimalString.
Import ListNotations.
Local Open Scope Z_scope.

(* ------------------------------------------------------------------ *)
(** ** Machine integers *)

Module Int64.

Definition min : Z := - 2 ^ 63.
Definition max : Z := 2 ^ 63 - 1.

(** Two's complement wrap-around of a mathematical integer. *)
Definition wrap (z : Z) : Z := (z + 2 ^ 63) mod 2 ^ 64 - 2 ^ 63.

Definition ok (z : Z) : Prop := min <= z <= max.

End Int64.

(* ------------------------------------------------------------------ *)
(** ** valve.go: the operation bitmask *)

Module IO.

Definition t : Type := Z.

Definition Read : t := Z.shiftl 1 0.
Definition Write : t := Z.shiftl 1 1.
Definition Close : t := Z.shiftl 1 2.
Definition ReadWrite : t := Z.lor Read Write.
Definition NOP : t := 0.
Definition DEADBEEF : t := Z.lnot NOP.

Definition String (o : t) : string :=
  if o =? Read then "read"
  else if o =? Write then "write"
  else if o =? Close then "close"
  else if o =? ReadWrite then "read/write"
  else if o =? NOP then "nop"
  else if o =? DEADBEEF then "invalid"
  else "unknown".

End IO.

(* ------------------------------------------------------------------ *)
(** ** Error values *)

(** The address of a [Limit]; a [LimitError] keeps the pointer of the
    Limit that produced it. *)
Definition ptr : Type := nat.

(** limit.go, [type LimitError struct]. *)
Record LimitError : Type := mkLimitError {
  le_Limit : ptr;
  le_op : IO.t;
  Requested : Z;
  Accepted : Z
}.

#[local] Set Warnings "-register-all".

(** The values of Go's [error] interface that occur in the package; [nil]
    is [None] of [option error].
    - [Opaque id]: a comparable error value owned by an endpoint or by a
      library ([io.EOF], [io.ErrClosedPipe], ...), identified by [id]; a
      chain behind it is not looked into.
    - [LimitErr]: a [LimitError] struct.
    - [InternalError]: [internal.Error] with its [when], [cause] and
      [wrap] fields (the [format] field only matters to rendering).
    - [JoinError]: the result of [errors.Join]. *)
Inductive error : Type :=
| Opaque (id : string)
| LimitErr (e : LimitError)
| InternalError (when : Z) (cause : error) (wrap : list error)
| JoinError (errs : list error).

Definition io_EOF : error := Opaque "EOF".
Definition io_ErrClosedPipe : error := Opaque "io: read/write on closed pipe".
Definition io_ErrShortWrite : error := Opaque "short write".
Definition io_errInvalidWrite : error := Opaque "invalid write result".

Definition is_EOF (e : error) : bool :=
  match e with
  | Opaque id => String.eqb id "EOF"
  | _ => false
  end.

Definition LimitError_eqb (a b : LimitError) : bool :=
  Nat.eqb (le_Limit a) (le_Limit b) && (le_op a =? le_op b)
  && (Requested a =? Requested b) && (Accepted a =? Accepted b).

(** Go's [==] on two error values, used by [errors.Is] when the target is
    comparable.  The identity of the pointers that [errors.Join] returns
    is not tracked: a join error is [==] to nothing here. *)
Definition error_eqb (a b : error) : bool :=
  match a, b with
  | Opaque x, Opaque y => String.eqb x y
  | LimitErr x, LimitErr y => LimitError_eqb x y
  | _, _ => false
  end.

(** [internal.Error] holds a slice and a function: it is not comparable. *)
Definition comparable (e : error) : bool :=
  match e with
  | InternalError _ _ _ => false
  | _ => true
  end.

(** errors.Join: nil arguments are dropped; nil when nothing is left. *)
Fixpoint non_nil (errs : list (option error)) : list error :=
  match errs with
  | [] => []
  | None :: tl => non_nil tl
  | Some e :: tl => e :: non_nil tl
  end.

Definition errors_Join (errs : list (option error)) : option error :=
  match non_nil errs with
  | [] => None
  | l => Some (JoinError l)
  end.

(** The loop of [errors.Is] below its nil checks.  [internal.Error.Is]
    replaces a target that is itself an [internal.Error] by its cause and
    compares that with its own cause; both [internal.Error] and the join
    error unwrap to a list. *)
Fixpoint errors_is (err target : error) {struct err} : bool :=
  (comparable target && error_eqb err target)
  || match err with
     | InternalError _ cause wrap =>
         errors_is cause
           (match target with InternalError _ c _ => c | _ => target end)
         || existsb (fun e => errors_is e target) wrap
     | JoinError errs => existsb (fun e => errors_is e target) errs
     | _ => false
     end.

Definition errors_Is (err target : option error) : bool :=
  match err, target with
  | Some e, Some t => errors_is e t
  | None, None => true
  | _, _ => false
  end.

(** internal/error.go: [MakeError]; [now] is the reading of [time.Now]. *)
Definition MakeError (now : Z) (cause : error) : error :=
  InternalError now cause [].

(* ------------------------------------------------------------------ *)
(** ** Results of calls *)

Inductive Result (A : Type) : Type :=
| Ok (a : A)
| Panic
| OutOfFuel.

Arguments Ok {A} a.
Arguments Panic {A}.
Arguments OutOfFuel {A}.

(* ------------------------------------------------------------------ *)
(** ** Byte slices *)

(** Go's [len(p)]. *)
Definition len (p : list byte) : Z := Z.of_nat (List.length p).

(** [p[:hi]]; out of range indices panic ([None]). *)
Definition slice_to (p : list byte) (hi : Z) : option (list byte) :=
  if (0 <=? hi) && (hi <=? len p)
  then Some (firstn (Z.to_nat hi) p)
  else None.

(** What a slice [p] holds after a callee stored the bytes [q] from its
    start: a callee cannot change the length of the slice it was given. *)
Definition fill (p q : list byte) : list byte :=
  firstn (List.length p) (q ++ skipn (List.length q) p).

(** [make([]byte, size)]. *)
Definition make (size : Z) : list byte := repeat x00 (Z.to_nat size).

(* ------------------------------------------------------------------ *)
(** ** Endpoints and the world they live in *)

Definition ref : Type := nat.

Inductive Event : Type :=
| EvRead (r : ref) (len : nat)
| EvWrite (r : ref) (p : list byte)
| EvClose (r : ref).

(** The capability set of the endpoints.  [Ty] is the dynamic type of an
    endpoint, [Obj] its mutable state.  [ep_Read t o p] returns the new
    state, the bytes stored into [p], and Go's [(n, err)];
    [ep_IsCloser t] tells whether values of type [t] satisfy
    [io.Closer]. *)
Class Endpoint (Ty Obj : Type) : Type := {
  ep_Read : Ty -> Obj -> list byte -> Obj * (list byte * Z * option error);
  ep_Write : Ty -> Obj -> list byte -> Obj * (Z * option error);
  ep_IsCloser : Ty -> bool;
  ep_Close : Ty -> Obj -> Obj * option error
}.

Record World (Ty Obj : Type) : Type := mkWorld {
  types : ref -> Ty;
  objs : ref -> Obj;
  trace : list Event;
  now : Z
}.

Arguments mkWorld {Ty Obj}.
Arguments types {Ty Obj}.
Arguments objs {Ty Obj}.
Arguments trace {Ty Obj}.
Arguments now {Ty Obj}.

Definition upd {A : Type} (f : ref -> A) (r : ref) (a : A) : ref -> A :=
  fun k => if Nat.eqb k r then a else f k.

(** The world after code of the object behind [r] moved it to the state
    [o], without a call from outside. *)
Definition set_obj {Ty Obj : Type} (w : World Ty Obj) (r : ref) (o : Obj)
  : World Ty Obj :=
  mkWorld (types w) (upd (objs w) r o) (trace w) (now w).

(** [io.LimitedReader]: the reader [R] and the bytes [N] that remain. *)
Record LimitedReader : Type := mkLimitedReader {
  lr_R : ref;
  lr_N : Z
}.

(** What [io.Copy] reads from in this package: an endpoint, or the
    [LimitedReader] that [io.CopyN] puts around one. *)
Inductive Source : Type :=
| SrcObj (r : ref)
| SrcLimited (l : LimitedReader).

(** The methods [io.Copy] looks for before it copies by itself.
    [ep_IsWriterTo t] tells whether values of type [t] satisfy
    [io.WriterTo], [ep_IsReaderFrom t] whether they satisfy
    [io.ReaderFrom].  [ep_WriteTo fuel w self dst] is [self.WriteTo(dst)]
    and [ep_ReadFrom fuel w self src] is [self.ReadFrom(src)], run in the
    world [w]: code of the endpoint, which may call [Read] and [Write] of
    other objects any number of times; [fuel] bounds its loops. *)
Class Copier (Ty Obj : Type) : Type := {
  ep_IsWriterTo : Ty -> bool;
  ep_WriteTo : nat -> World Ty Obj -> ref -> ref
               -> Result (World Ty Obj * (Z * option error));
  ep_IsReaderFrom : Ty -> bool;
  ep_ReadFrom : nat -> World Ty Obj -> ref -> Source
                -> Result (World Ty Obj * (Z * option error))
}.

(* ------------------------------------------------------------------ *)
(** ** meter.go and limit.go: the data *)

(** meter.go, [type Meter struct]: two optional bindings, two counters. *)
Record Meter : Type := mkMeter {
  Reader : option ref;
  Writer : option ref;
  rCount : Z;
  wCount : Z
}.

(** limit.go, [type Limit struct]: a pointer to a Meter (possibly nil) and
    two ceilings.  [self] is the address of the Limit itself. *)
Record Limit : Type := mkLimit {
  self : ptr;
  Limit_Meter : option Meter;
  rMax : Z;
  wMax : Z
}.

Definition Unlimited : Z := -1.

(* ------------------------------------------------------------------ *)
(** ** The operations *)

Section Valve.

Context {Ty Obj : Type} {E : Endpoint Ty Obj} {C : Copier Ty Obj}.

Local Abbreviation W := (World Ty Obj).

(** *** Calls of endpoint methods *)

(** [r.Read(p)] on the object behind [r]: the object moves to its new
    state, the call is logged, and [p] holds the bytes stored. *)
Definition obj_Read (w : W) (r : ref) (p : list byte)
  : W * (list byte * Z * option error) :=
  let '(o, (q, n, err)) := ep_Read (types w r) (objs w r) p in
  (mkWorld (types w) (upd (objs w) r o)
           (trace w ++ [EvRead r (List.length p)]) (now w),
   (fill p q, n, err)).

Definition obj_Write (w : W) (r : ref) (p : list byte)
  : W * (Z * option error) :=
  let '(o, res) := ep_Write (types w r) (objs w r) p in
  (mkWorld (types w) (upd (objs w) r o) (trace w ++ [EvWrite r p]) (now w),
   res).

Definition obj_Close (w : W) (r : ref) : W * option error :=
  let '(o, err) := ep_Close (types w r) (objs w r) in
  (mkWorld (types w) (upd (objs w) r o) (trace w ++ [EvClose r]) (now w),
   err).

(** *** Package io: LimitedReader, Copy, CopyN

    After the Go standard library. *)

(** [LimitedReader.Read]. *)
Definition LimitedReader_Read (w : W) (l : LimitedReader) (p : list byte)
  : W * LimitedReader * (list byte * Z * option error) :=
  if lr_N l <=? 0 then (w, l, (p, 0, Some io_EOF))
  else
    let k := if len p >? lr_N l then Z.to_nat (lr_N l) else List.length p in
    let '(w', (q, n, err)) := obj_Read w (lr_R l) (firstn k p) in
    (w', mkLimitedReader (lr_R l) (Int64.wrap (lr_N l - n)),
     (q ++ skipn k p, n, err)).

Definition Source_Read (w : W) (src : Source) (p : list byte)
  : W * Source * (list byte * Z * option error) :=
  match src with
  | SrcObj r => let '(w', res) := obj_Read w r p in (w', src, res)
  | SrcLimited l =>
      let '(w', l', res) := LimitedReader_Read w l p in
      (w', SrcLimited l', res)
  end.

(** The [for] loop of [io.copyBuffer]; [fuel] bounds its iterations. *)
Fixpoint copy_loop (fuel : nat) (w : W) (dst : ref) (src : Source)
         (buf : list byte) (written : Z) {struct fuel}
  : Result (W * (Z * option error)) :=
  match fuel with
  | O => OutOfFuel
  | S fuel' =>
      let '(w1, src1, (buf1, nr, er)) := Source_Read w src buf in
      let after (w' : W) (written' : Z) :=
        match er with
        | Some e => Ok (w', (written', if is_EOF e then None else Some e))
        | None => copy_loop fuel' w' dst src1 buf1 written'
        end in
      if nr >? 0 then
        match slice_to buf1 nr with
        | None => Panic
        | Some chunk =>
            let '(w2, (nw0, ew0)) := obj_Write w1 dst chunk in
            let '(nw, ew) :=
              if (nw0 <? 0) || (nr <? nw0)
              then (0, Some (match ew0 with
                             | Some e => e
                             | None => io_errInvalidWrite
                             end))
              else (nw0, ew0) in
            let written' := Int64.wrap (written + nw) in
            match ew with
            | Some e => Ok (w2, (written', Some e))
            | None =>
                if negb (nr =? nw)
                then Ok (w2, (written', Some io_ErrShortWrite))
                else after w2 written'
            end
        end
      else after w1 written
  end.

(** The buffer [io.copyBuffer] allocates: 32 KiB, or less when the
    source is a [LimitedReader] with fewer bytes left. *)
Definition copy_size (src : Source) : Z :=
  let size := 32 * 1024 in
  match src with
  | SrcLimited l =>
      if size >? lr_N l then (if lr_N l <? 1 then 1 else lr_N l) else size
  | SrcObj _ => size
  end.

(** [src.(io.WriterTo)]: a [*LimitedReader] has no [WriteTo] method. *)
Definition is_WriterTo (w : W) (src : Source) : option ref :=
  match src with
  | SrcObj r => if ep_IsWriterTo (types w r) then Some r else None
  | SrcLimited _ => None
  end.

(** [io.Copy], that is [io.copyBuffer] with a nil buffer: the copy is
    handed to [src.WriteTo] when the source has that method, else to
    [dst.ReadFrom] when the destination has that one; only without both
    does the loop run, on a buffer allocated here. *)
Definition io_Copy (fuel : nat) (w : W) (dst : ref) (src : Source)
  : Result (W * (Z * option error)) :=
  match is_WriterTo w src with
  | Some wt => ep_WriteTo fuel w wt dst
  | None =>
      if ep_IsReaderFrom (types w dst)
      then ep_ReadFrom fuel w dst src
      else copy_loop fuel w dst src (make (copy_size src)) 0
  end.

Definition io_CopyN (fuel : nat) (w : W) (dst : ref) (src : ref) (n : Z)
  : Result (W * (Z * option error)) :=
  match io_Copy fuel w dst (SrcLimited (mkLimitedReader src n)) with
  | Ok (w', (written, err)) =>
      if written =? n then Ok (w', (n, None))
      else if (written <? n) && (match err with None => true | _ => false end)
           then Ok (w', (written, Some io_EOF))
           else Ok (w', (written, err))
  | Panic => Panic
  | OutOfFuel => OutOfFuel
  end.

(** *** meter.go *)

Definition NewMeter (r w : option ref) : Meter := mkMeter r w 0 0.
Definition NewReadMeter (r : option ref) : Meter := mkMeter r None 0 0.
Definition NewWriteMeter (w : option ref) : Meter := mkMeter None w 0 0.
Definition NewReadWriteMeter (rw : option ref) : Meter := mkMeter rw rw 0 0.

Definition Meter_CanRead (m : Meter) : bool :=
  match Reader m with Some _ => true | None => false end.

Definition Meter_CanWrite (m : Meter) : bool :=
  match Writer m with Some _ => true | None => false end.

Definition Meter_CountRead (m : Meter) : Z := rCount m.
Definition Meter_CountWrite (m : Meter) : Z := wCount m.
Definition Meter_Count (m : Meter) : Z * Z :=
  (Meter_CountRead m, Meter_CountWrite m).

(** [atomic.Int64.Add]: the new value wraps around. *)
Definition Meter_AddCountRead (m : Meter) (r : Z) : Meter * Z :=
  let v := Int64.wrap (rCount m + r) in
  (mkMeter (Reader m) (Writer m) v (wCount m), v).

Definition Meter_AddCountWrite (m : Meter) (w : Z) : Meter * Z :=
  let v := Int64.wrap (wCount m + w) in
  (mkMeter (Reader m) (Writer m) (rCount m) v, v).

Definition Meter_AddCount (m : Meter) (r w : Z) : Meter * (Z * Z) :=
  let '(m1, nr) := Meter_AddCountRead m r in
  let '(m2, nw) := Meter_AddCountWrite m1 w in
  (m2, (nr, nw)).

Definition Meter_SetCountRead (m : Meter) (r : Z) : Meter :=
  mkMeter (Reader m) (Writer m) r (wCount m).

Definition Meter_SetCountWrite (m : Meter) (w : Z) : Meter :=
  mkMeter (Reader m) (Writer m) (rCount m) w.

Definition Meter_SetCount (m : Meter) (r w : Z) : Meter :=
  Meter_SetCountWrite (Meter_SetCountRead m r) w.

Definition Meter_ResetCountRead (m : Meter) : Meter := Meter_SetCountRead m 0.
Definition Meter_ResetCountWrite (m : Meter) : Meter := Meter_SetCountWrite m 0.
Definition Meter_ResetCount (m : Meter) : Meter :=
  Meter_ResetCountWrite (Meter_ResetCountRead m).

(** [Meter.Read]: closed pipe without a reader; else the endpoint reads
    into [p] and the count it returns is added to the read counter. *)
Definition Meter_Read (m : Meter) (w : W) (p : list byte)
  : W * Meter * (list byte * Z * option error) :=
  match Reader m with
  | None => (w, m, (p, 0, Some io_ErrClosedPipe))
  | Some r =>
      let '(w', (q, n, err)) := obj_Read w r p in
      (w', fst (Meter_AddCountRead m n), (q, n, err))
  end.

(** [Meter.Write], the same with the writer and the write counter. *)
Definition Meter_Write (m : Meter) (w : W) (p : list byte)
  : W * Meter * (Z * option error) :=
  match Writer m with
  | None => (w, m, (0, Some io_ErrClosedPipe))
  | Some r =>
      let '(w', (n, err)) := obj_Write w r p in
      (w', fst (Meter_AddCountWrite m n), (n, err))
  end.

(** [Meter.ReadFrom]: [io.Copy(m.Writer, r)], counted as written. *)
Definition Meter_ReadFrom (fuel : nat) (m : Meter) (w : W) (r : ref)
  : Result (W * Meter * (Z * option error)) :=
  match Writer m with
  | None => Ok (w, m, (0, Some io_ErrClosedPipe))
  | Some dst =>
      match io_Copy fuel w dst (SrcObj r) with
      | Ok (w', (n, err)) => Ok (w', fst (Meter_AddCountWrite m n), (n, err))
      | Panic => Panic
      | OutOfFuel => OutOfFuel
      end
  end.

(** [Meter.WriteTo]: [io.Copy(w, m.Reader)], counted as read. *)
Definition Meter_WriteTo (fuel : nat) (m : Meter) (w : W) (dst : ref)
  : Result (W * Meter * (Z * option error)) :=
  match Reader m with
  | None => Ok (w, m, (0, Some io_ErrClosedPipe))
  | Some r =>
      match io_Copy fuel w dst (SrcObj r) with
      | Ok (w', (n, err)) => Ok (w', fst (Meter_AddCountRead m n), (n, err))
      | Panic => Panic
      | OutOfFuel => OutOfFuel
      end
  end.

(** One turn of the loop of [Meter.close]: a nil interface and a value
    whose type has no [Close] method are skipped. *)
Definition close_step (acc : W * option error) (v : option ref)
  : W * option error :=
  let '(w, err) := acc in
  match v with
  | None => (w, err)
  | Some r =>
      if ep_IsCloser (types w r)
      then let '(w', e) := obj_Close w r in (w', errors_Join [err; e])
      else (w, err)
  end.

(** [Meter.close(v...)] and [Meter.Close], which passes the reader and
    then the writer. *)
Definition Meter_close (w : W) (v : list (option ref)) : W * option error :=
  fold_left close_step v (w, None).

Definition Meter_Close (m : Meter) (w : W) : W * option error :=
  Meter_close w [Reader m; Writer m].

(** *** limit.go *)

Definition Limit_MaxCountRead (l : Limit) : Z := rMax l.
Definition Limit_MaxCountWrite (l : Limit) : Z := wMax l.
Definition Limit_MaxCount (l : Limit) : Z * Z :=
  (rMax l, wMax l).

Definition Limit_SetMaxCountRead (l : Limit) (r : Z) : Limit :=
  mkLimit (self l) (Limit_Meter l) r (wMax l).

Definition Limit_SetMaxCountWrite (l : Limit) (w : Z) : Limit :=
  mkLimit (self l) (Limit_Meter l) (rMax l) w.

Definition Limit_SetMaxCount (l : Limit) (r w : Z) : Limit :=
  mkLimit (self l) (Limit_Meter l) r w.

(** [a] is the address of the Limit that the constructor allocates. *)
Definition NewLimit (a : ptr) (r : option ref) (rMax : Z)
           (w : option ref) (wMax : Z) : Limit :=
  Limit_SetMaxCount (mkLimit a (Some (NewMeter r w)) 0 0) rMax wMax.

Definition NewReadLimit (a : ptr) (r : option ref) (rMax : Z) : Limit :=
  Limit_SetMaxCountRead (mkLimit a (Some (NewReadMeter r)) 0 0) rMax.

Definition NewWriteLimit (a : ptr) (w : option ref) (wMax : Z) : Limit :=
  Limit_SetMaxCountWrite (mkLimit a (Some (NewWriteMeter w)) 0 0) wMax.

Definition NewReadWriteLimit (a : ptr) (rw : option ref) (rMax wMax : Z)
  : Limit :=
  Limit_SetMaxCount (mkLimit a (Some (NewReadWriteMeter rw)) 0 0) rMax wMax.

Definition Limit_CanRead (l : Limit) : bool :=
  match Limit_Meter l with
  | Some m => Meter_CanRead m
  | None => false
  end.

Definition Limit_CanWrite (l : Limit) : bool :=
  match Limit_Meter l with
  | Some m => Meter_CanWrite m
  | None => false
  end.

(** The counter methods that a Limit inherits from its Meter.  With a
    nil Meter Go panics on them; the transfer methods below call them
    only behind [CanRead] or [CanWrite]. *)
Definition Limit_CountRead (l : Limit) : Z :=
  match Limit_Meter l with Some m => Meter_CountRead m | None => 0 end.

Definition Limit_CountWrite (l : Limit) : Z :=
  match Limit_Meter l with Some m => Meter_CountWrite m | None => 0 end.

(** The Limit after its Meter moved to [m]. *)
Definition with_Meter (l : Limit) (m : Meter) : Limit :=
  mkLimit (self l) (Some m) (rMax l) (wMax l).

Definition Limit_SetCountRead (l : Limit) (r : Z) : Limit :=
  match Limit_Meter l with
  | Some m => with_Meter l (Meter_SetCountRead m r)
  | None => l
  end.

Definition Limit_SetCountWrite (l : Limit) (w : Z) : Limit :=
  match Limit_Meter l with
  | Some m => with_Meter l (Meter_SetCountWrite m w)
  | None => l
  end.

Definition Limit_RemainingCountRead (l : Limit) : Z :=
  Int64.wrap (Limit_MaxCountRead l - Limit_CountRead l).

Definition Limit_RemainingCountWrite (l : Limit) : Z :=
  Int64.wrap (Limit_MaxCountWrite l - Limit_CountWrite l).

Definition Limit_RemainingCount (l : Limit) : Z * Z :=
  (Limit_RemainingCountRead l, Limit_RemainingCountWrite l).

Definition Limit_MakeReadLimitError (l : Limit) (w : W) (req n : Z) : error :=
  MakeError (now w) (LimitErr (mkLimitError (self l) IO.Read req n)).

Definition Limit_MakeWriteLimitError (l : Limit) (w : W) (req n : Z) : error :=
  MakeError (now w) (LimitErr (mkLimitError (self l) IO.Write req n)).

(** The [switch] of [Read] and [Write] up to the endpoint call: the
    slice handed on and the pending error, or [None] when [p[:rem]]
    panics. *)
Definition truncate (p : list byte) (req rem : Z) (e : error)
  : option (list byte * option error) :=
  if req >? rem
  then match slice_to p rem with
       | Some p' => Some (p', Some e)
       | None => None
       end
  else Some (p, None).

(** [Limit.Read].  The two outer matches are [l.CanRead()]; then the
    [switch]: unlimited, ceiling reached, request longer than what
    remains; then the endpoint call, the choice of the error and the
    update of the counter. *)
Definition Limit_Read (l : Limit) (w : W) (p : list byte)
  : Result (W * Limit * (list byte * Z * option error)) :=
  match Limit_Meter l with
  | None => Ok (w, l, (p, 0, Some io_ErrClosedPipe))
  | Some m =>
    match Reader m with
    | None => Ok (w, l, (p, 0, Some io_ErrClosedPipe))
    | Some r =>
      let req := len p in
      let rem := Limit_RemainingCountRead l in
      if Limit_MaxCountRead l =? Unlimited then
        let '(w', m', res) := Meter_Read m w p in Ok (w', with_Meter l m', res)
      else if Limit_CountRead l >=? Limit_MaxCountRead l then
        Ok (w, l, (p, 0, Some (Limit_MakeReadLimitError l w req 0)))
      else
        match truncate p req rem (Limit_MakeReadLimitError l w req rem) with
        | None => Panic
        | Some (p', e) =>
            let '(w', (q, n, err)) := obj_Read w r p' in
            let err := match err with None => e | Some _ => err end in
            Ok (w', with_Meter l (fst (Meter_AddCountRead m n)),
                (q ++ skipn (List.length p') p, n, err))
        end
    end
  end.

(** [Limit.ReadFrom]: unlimited, nothing remaining, or a drain of [rem]
    bytes by [io.CopyN(l.Writer, r, rem)]. *)
Definition Limit_ReadFrom (fuel : nat) (l : Limit) (w : W) (r : ref)
  : Result (W * Limit * (Z * option error)) :=
  match Limit_Meter l with
  | None => Ok (w, l, (0, Some io_ErrClosedPipe))
  | Some m =>
    match Writer m with
    | None => Ok (w, l, (0, Some io_ErrClosedPipe))
    | Some dst =>
      let rem := Limit_RemainingCountWrite l in
      if Limit_MaxCountWrite l =? Unlimited then
        match Meter_ReadFrom fuel m w r with
        | Ok (w', m', res) => Ok (w', with_Meter l m', res)
        | Panic => Panic
        | OutOfFuel => OutOfFuel
        end
      else if rem <=? 0 then
        Ok (w, l, (0, Some (Limit_MakeWriteLimitError l w rem 0)))
      else
        match io_CopyN fuel w dst r rem with
        | Ok (w', (n, err)) =>
            Ok (w', with_Meter l (fst (Meter_AddCountWrite m n)), (n, err))
        | Panic => Panic
        | OutOfFuel => OutOfFuel
        end
    end
  end.

(** [Limit.Write], the mirror image of [Limit.Read]. *)
Definition Limit_Write (l : Limit) (w : W) (p : list byte)
  : Result (W * Limit * (Z * option error)) :=
  match Limit_Meter l with
  | None => Ok (w, l, (0, Some io_ErrClosedPipe))
  | Some m =>
    match Writer m with
    | None => Ok (w, l, (0, Some io_ErrClosedPipe))
    | Some r =>
      let req := len p in
      let rem := Limit_RemainingCountWrite l in
      if Limit_MaxCountWrite l =? Unlimited then
        let '(w', m', res) := Meter_Write m w p in Ok (w', with_Meter l m', res)
      else if Limit_CountWrite l >=? Limit_MaxCountWrite l then
        Ok (w, l, (0, Some (Limit_MakeWriteLimitError l w req 0)))
      else
        match truncate p req rem (Limit_MakeWriteLimitError l w req rem) with
        | None => Panic
        | Some (p', e) =>
            let '(w', (n, err)) := obj_Write w r p' in
            let err := match err with None => e | Some _ => err end in
            Ok (w', with_Meter l (fst (Meter_AddCountWrite m n)), (n, err))
        end
    end
  end.

(** [Limit.WriteTo]: as [Limit.ReadFrom], by
    [io.CopyN(w, l.Reader, rem)]. *)
Definition Limit_WriteTo (fuel : nat) (l : Limit) (w : W) (dst : ref)
  : Result (W * Limit * (Z * option error)) :=
  match Limit_Meter l with
  | None => Ok (w, l, (0, Some io_ErrClosedPipe))
  | Some m =>
    match Reader m with
    | None => Ok (w, l, (0, Some io_ErrClosedPipe))
    | Some r =>
      let rem := Limit_RemainingCountRead l in
      if Limit_MaxCountRead l =? Unlimited then
        match Meter_WriteTo fuel m w dst with
        | Ok (w', m', res) => Ok (w', with_Meter l m', res)
        | Panic => Panic
        | OutOfFuel => OutOfFuel
        end
      else if rem <=? 0 then
        Ok (w, l, (0, Some (Limit_MakeReadLimitError l w rem 0)))
      else
        match io_CopyN fuel w dst r rem with
        | Ok (w', (n, err)) =>
            Ok (w', with_Meter l (fst (Meter_AddCountRead m n)), (n, err))
        | Panic => Panic
        | OutOfFuel => OutOfFuel
        end
    end
  end.

(** [Limit.Close]. *)
Definition Limit_Close (l : Limit) (w : W) : W * option error :=
  match Limit_Meter l with
  | Some m => Meter_Close m w
  | None => (w, None)
  end.

End Valve.

(* ------------------------------------------------------------------ *)
(** ** Concrete endpoints

    The endpoints of the package's tests: [bytes.Reader] and
    [bytes.Buffer] of the Go library with their [WriteTo] and [ReadFrom]
    methods, the test double [mockReadWriteCloser] of [mock_test.go],
    and a test double [File] whose calls fail once it is closed, as those
    of an [os.File] do; [File] has [Read], [Write] and [Close] only. *)

Module Mock.

Inductive Ty : Type :=
| BytesReader
| BytesBuffer
| ReadWriteCloser
| File.

Record Obj : Type := mkObj {
  data : list byte;
  closed : bool;
  rerr : option error;
  werr : option error;
  cerr : option error
}.

Definition with_data (o : Obj) (d : list byte) : Obj :=
  mkObj d (closed o) (rerr o) (werr o) (cerr o).

Definition os_ErrClosed : error := Opaque "file already closed".

(** [copy(p, data)] followed by dropping the copied bytes. *)
Definition take (o : Obj) (p : list byte)
  : Obj * (list byte * Z * option error) :=
  let n := Nat.min (List.length p) (List.length (data o)) in
  (with_data o (skipn n (data o)), (firstn n (data o), Z.of_nat n, None)).

Definition Read (t : Ty) (o : Obj) (p : list byte)
  : Obj * (list byte * Z * option error) :=
  match t with
  | BytesReader =>
      match data o with
      | [] => (o, ([], 0, Some io_EOF))
      | _ => take o p
      end
  | BytesBuffer =>
      match data o with
      | [] => (o, ([], 0, match p with [] => None | _ => Some io_EOF end))
      | _ => take o p
      end
  | ReadWriteCloser => (o, ([], 0, rerr o))
  | File => if closed o then (o, ([], 0, Some os_ErrClosed)) else take o p
  end.

Definition Write (t : Ty) (o : Obj) (p : list byte)
  : Obj * (Z * option error) :=
  match t with
  | BytesReader => (o, (0, Some (Opaque "not a writer")))
  | BytesBuffer => (with_data o (data o ++ p), (len p, None))
  | ReadWriteCloser => (o, (0, werr o))
  | File =>
      if closed o then (o, (0, Some os_ErrClosed))
      else (with_data o (data o ++ p), (len p, None))
  end.

Definition IsCloser (t : Ty) : bool :=
  match t with
  | ReadWriteCloser | File => true
  | BytesReader | BytesBuffer => false
  end.

Definition Close (t : Ty) (o : Obj) : Obj * option error :=
  match t with
  | ReadWriteCloser => (o, cerr o)
  | File =>
      if closed o then (o, Some os_ErrClosed)
      else (mkObj (data o) true (rerr o) (werr o) (cerr o), None)
  | BytesReader | BytesBuffer => (o, None)
  end.

#[global] Instance endpoint : Endpoint Ty Obj := {
  ep_Read := Read;
  ep_Write := Write;
  ep_IsCloser := IsCloser;
  ep_Close := Close
}.

(** [bytes.Reader.WriteTo]: the unread bytes go to [dst] in one [Write],
    and the reader moves on by the count that [Write] returns.  (No
    writer of this module returns a negative count, on which Go would
    move the reader backwards.) *)
Definition Reader_WriteTo (w : World Ty Obj) (self dst : ref)
  : Result (World Ty Obj * (Z * option error)) :=
  match data (objs w self) with
  | [] => Ok (w, (0, None))
  | b =>
      let '(w1, (m, err)) := obj_Write w dst b in
      if m >? len b then Panic
      else
        Ok (set_obj w1 self (with_data (objs w1 self) (skipn (Z.to_nat m) b)),
            (m, match err with
                | Some _ => err
                | None =>
                    if negb (m =? len b) then Some io_ErrShortWrite else None
                end))
  end.

(** [bytes.Buffer.WriteTo]: the same, and the buffer is reset once all
    of it was written. *)
Definition Buffer_WriteTo (w : World Ty Obj) (self dst : ref)
  : Result (World Ty Obj * (Z * option error)) :=
  match data (objs w self) with
  | [] => Ok (w, (0, None))
  | b =>
      let '(w1, (m, err)) := obj_Write w dst b in
      if m >? len b then Panic
      else
        let o := objs w1 self in
        let rest := with_data o (skipn (Z.to_nat m) (data o)) in
        match err with
        | Some _ => Ok (set_obj w1 self rest, (m, err))
        | None =>
            if negb (m =? len b)
            then Ok (set_obj w1 self rest, (m, Some io_ErrShortWrite))
            else Ok (set_obj w1 self (with_data o []), (m, None))
        end
  end.

(** [bytes.MinRead]. *)
Definition MinRead : Z := 512.

(** [bytes.Buffer.ReadFrom]: read into the free end of the buffer until
    the source reports an error; [io.EOF] is not returned.  The slice
    handed to the source has at least [MinRead] bytes; how many more is
    up to the allocator, and the model hands out [MinRead].  [n] is the
    count so far. *)
Fixpoint Buffer_ReadFrom (fuel : nat) (w : World Ty Obj) (self : ref)
         (src : Source) (n : Z) {struct fuel}
  : Result (World Ty Obj * (Z * option error)) :=
  match fuel with
  | O => OutOfFuel
  | S fuel' =>
      let '(w1, src1, (q, m, e)) := Source_Read w src (make MinRead) in
      if m <? 0 then Panic
      else
        match slice_to q m with
        | None => Panic
        | Some got =>
            let o := objs w1 self in
            let w2 := set_obj w1 self (with_data o (data o ++ got)) in
            let n' := Int64.wrap (n + m) in
            match e with
            | Some err => Ok (w2, (n', if is_EOF err then None else Some err))
            | None => Buffer_ReadFrom fuel' w2 self src1 n'
            end
        end
  end.

Definition IsWriterTo (t : Ty) : bool :=
  match t with
  | BytesReader | BytesBuffer => true
  | ReadWriteCloser | File => false
  end.

Definition IsReaderFrom (t : Ty) : bool :=
  match t with
  | BytesBuffer => true
  | BytesReader | ReadWriteCloser | File => false
  end.

(** A method that the type of [self] does not have is never called. *)
Definition WriteTo (fuel : nat) (w : World Ty Obj) (self dst : ref)
  : Result (World Ty Obj * (Z * option error)) :=
  match types w self with
  | BytesReader => Reader_WriteTo w self dst
  | BytesBuffer => Buffer_WriteTo w self dst
  | ReadWriteCloser | File => Panic
  end.

Definition ReadFrom (fuel : nat) (w : World Ty Obj) (self : ref)
           (src : Source) : Result (World Ty Obj * (Z * option error)) :=
  match types w self with
  | BytesBuffer => Buffer_ReadFrom fuel w self src 0
  | BytesReader | ReadWriteCloser | File => Panic
  end.

#[global] Instance copier : Copier Ty Obj := {
  ep_IsWriterTo := IsWriterTo;
  ep_WriteTo := WriteTo;
  ep_IsReaderFrom := IsReaderFrom;
  ep_ReadFrom := ReadFrom
}.

Definition bytes_of (s : string) : list byte := list_byte_of_string s.

Definition holding (d : list byte) : Obj := mkObj d false None None None.

(** A world of two objects: [src] of type [ts] behind reference 0,
    [dst] of type [td] behind reference 1. *)
Definition world2 (ts : Ty) (src : Obj) (td : Ty) (dst : Obj)
  : World Ty Obj :=
  mkWorld (fun r => match r with O => ts | _ => td end)
          (fun r => match r with O => src | _ => dst end)
          [] 0.

Definition hello : list byte := bytes_of "Hello, World!".

End Mock.

(** Endpoints with [Read] and [Write] only: a [bytes.Reader] inside
    [struct{ io.Reader }] and a [bytes.Buffer] inside
    [struct{ io.Writer }], the wrapping by which Go code hides the other
    methods of a value.  [io.Copy] finds no [WriteTo] and no [ReadFrom]
    on them and runs its own loop. *)
Module Plain.

Inductive Ty : Type :=
| OnlyReader
| OnlyWriter.

Definition Obj : Type := Mock.Obj.

Definition Read (t : Ty) (o : Obj) (p : list byte)
  : Obj * (list byte * Z * option error) :=
  match t with
  | OnlyReader => Mock.Read Mock.BytesReader o p
  | OnlyWriter => (o, ([], 0, Some (Opaque "not a reader")))
  end.

Definition Write (t : Ty) (o : Obj) (p : list byte)
  : Obj * (Z * option error) :=
  match t with
  | OnlyReader => (o, (0, Some (Opaque "not a writer")))
  | OnlyWriter => Mock.Write Mock.BytesBuffer o p
  end.

#[global] Instance endpoint : Endpoint Ty Obj := {
  ep_Read := Read;
  ep_Write := Write;
  ep_IsCloser := fun _ => false;
  ep_Close := fun _ o => (o, None)
}.

#[global] Instance copier : Copier Ty Obj := {
  ep_IsWriterTo := fun _ => false;
  ep_WriteTo := fun _ _ _ _ => Panic;
  ep_IsReaderFrom := fun _ => false;
  ep_ReadFrom := fun _ _ _ _ => Panic
}.

(** A reader of the bytes [d] behind reference 0, an empty writer
    behind 1. *)
Definition world2 (d : list byte) : World Ty Obj :=
  mkWorld (fun r => match r with O => OnlyReader | _ => OnlyWriter end)
          (fun r => match r with O => Mock.holding d | _ => Mock.holding [] end)
          [] 0.

End Plain.

(** A reader that breaks the contract of [io.Reader],
    [func (liar) Read(p []byte) (int, error) { return 8, nil }],
    whatever the length of [p], and a writer that keeps what it is
    given.  Neither has [WriteTo] or [ReadFrom]. *)
Module Hostile.

Inductive Ty : Type :=
| Liar
| Sink.

(** The bytes a [Sink] has taken. *)
Definition Obj : Type := list byte.

Definition Read (t : Ty) (o : Obj) (p : list byte)
  : Obj * (list byte * Z * option error) :=
  match t with
  | Liar => (o, ([], 8, None))
  | Sink => (o, ([], 0, Some (Opaque "not a reader")))
  end.

Definition Write (t : Ty) (o : Obj) (p : list byte)
  : Obj * (Z * option error) :=
  match t with
  | Liar => (o, (0, Some (Opaque "not a writer")))
  | Sink => (o ++ p, (len p, None))
  end.

#[global] Instance endpoint : Endpoint Ty Obj := {
  ep_Read := Read;
  ep_Write := Write;
  ep_IsCloser := fun _ => false;
  ep_Close := fun _ o => (o, None)
}.

#[global] Instance copier : Copier Ty Obj := {
  ep_IsWriterTo := fun _ => false;
  ep_WriteTo := fun _ _ _ _ => Panic;
  ep_IsReaderFrom := fun _ => false;
  ep_ReadFrom := fun _ _ _ _ => Panic
}.

(** The liar behind reference 0, an empty sink behind 1. *)
Definition world : World Ty Obj :=
  mkWorld (fun r => match r with O => Liar | _ => Sink end)
          (fun _ => [])
          [] 0.

(** [NewWriteLimit(sink, 10)]. *)
Definition lW10 : Limit := NewWriteLimit 7%nat (Some 1%nat) 10.

End Hostile.

(* ------------------------------------------------------------------ *)
(** ** Vocabulary of the statements *)

Section Vocabulary.

Context {Ty Obj : Type} {E : Endpoint Ty Obj} {C : Copier Ty Obj}.

Local Abbreviation W := (World Ty Obj).

(** What a Limit returns when a call on its Meter returned [res]: the
    same world, count and error, with the Meter's new state in the
    Limit. *)
Definition via_Meter {X : Type} (l : Limit) (res : Result (W * Meter * X))
  : Result (W * Limit * X) :=
  match res with
  | Ok (w', m', x) => Ok (w', with_Meter l m', x)
  | Panic => Panic
  | OutOfFuel => OutOfFuel
  end.

(** Closing in the words of the specification: going through the
    bindings in order, every bound endpoint that has a close capability
    is closed once; [closes w v calls w'] lists the endpoints closed
    and what each close returned. *)
Inductive closes : W -> list (option ref) -> list (ref * option error)
                   -> W -> Prop :=
| closes_done (w : W) :
    closes w [] [] w
| closes_unbound (w : W) v calls w' :
    closes w v calls w' ->
    closes w (None :: v) calls w'
| closes_no_closer (w : W) r v calls w' :
    ep_IsCloser (types w r) = false ->
    closes w v calls w' ->
    closes w (Some r :: v) calls w'
| closes_closer (w : W) r v calls w1 e w' :
    ep_IsCloser (types w r) = true ->
    obj_Close w r = (w1, e) ->
    closes w1 v calls w' ->
    closes w (Some r :: v) ((r, e) :: calls) w'.

(** The endpoints keep to the contract of [io.Reader] and [io.Writer]:
    a call transfers between 0 and [len(p)] bytes. *)
Definition reads_within : Prop :=
  forall t o p,
    0 <= snd (fst (snd (ep_Read t o p))) <= len p.

Definition writes_within : Prop :=
  forall t o p,
    0 <= fst (snd (ep_Write t o p)) <= len p.

(** The [ReadFrom] methods keep to the contract of [io.ReaderFrom], by
    which the count returned is the number of bytes read: fed by a
    [LimitedReader] with [N] bytes left, a [ReadFrom] that returns
    reports between 0 and [N] bytes. *)
Definition readfrom_within : Prop :=
  forall fuel w dst l w' n err,
    ep_IsReaderFrom (types w dst) = true ->
    0 <= lr_N l <= Int64.max ->
    ep_ReadFrom fuel w dst (SrcLimited l) = Ok (w', (n, err)) ->
    0 <= n <= lr_N l.

(** The readers make progress: a [Read] into a buffer that is not empty
    returns at least one byte or an error. *)
Definition reads_progress : Prop :=
  forall t o p,
    0 < len p ->
    0 < snd (fst (snd (ep_Read t o p))) \/ snd (snd (ep_Read t o p)) <> None.

End Vocabulary.

(* ------------------------------------------------------------------ *)
(** ** Concrete runs *)

Module Scenario.

Import Mock.

(** A 13-byte reader behind reference 0, an empty buffer behind 1. *)
Definition wA : World Ty Obj :=
  world2 BytesReader (holding hello) BytesBuffer (holding []).

(** A 2-byte reader behind reference 0. *)
Definition wHi : World Ty Obj :=
  world2 BytesReader (holding (bytes_of "Hi")) BytesBuffer (holding []).

(** A 5-byte reader behind reference 0. *)
Definition wHello5 : World Ty Obj :=
  world2 BytesReader (holding (bytes_of "Hello")) BytesBuffer (holding []).

(** A test double behind reference 0 whose reads and writes fail. *)
Definition boom : error := Opaque "boom".

Definition wFail : World Ty Obj :=
  world2 ReadWriteCloser (mkObj [] false (Some boom) (Some boom) None)
         BytesBuffer (holding []).

(** A file behind reference 0, a test double whose close fails behind 1. *)
Definition cerr : error := Opaque "close error: EOF".

Definition wC : World Ty Obj :=
  world2 File (holding hello)
         ReadWriteCloser (mkObj [] false None None (Some cerr)).

Definition buf13 : list byte := make 13.

Definition lR5 : Limit := NewReadLimit 7%nat (Some 0%nat) 5.
Definition lW5 : Limit := NewWriteLimit 7%nat (Some 1%nat) 5.

(** The counter of the direction stands at the ceiling. *)
Definition lR5_full : Limit := Limit_SetCountRead lR5 5.
Definition lW5_full : Limit := Limit_SetCountWrite lW5 5.

(** [NewWriteLimit(buf, 13)], 13 bytes written, then the ceiling lowered
    to 5; the same for the read side. *)
Definition lW_lowered : Limit :=
  match Limit_Write (NewWriteLimit 7%nat (Some 1%nat) 13) wA hello with
  | Ok (_, l, _) => Limit_SetMaxCountWrite l 5
  | _ => NewWriteLimit 7%nat (Some 1%nat) 13
  end.

Definition lR_lowered : Limit :=
  match Limit_Read (NewReadLimit 7%nat (Some 0%nat) 13) wA buf13 with
  | Ok (_, l, _) => Limit_SetMaxCountRead l 5
  | _ => NewReadLimit 7%nat (Some 0%nat) 13
  end.

End Scenario.

(* ------------------------------------------------------------------ *)
(** ** internal/error.go: the Error type *)

(** [type Error struct] with a non-nil cause: [when], [cause] and [wrap];
    [Error_to_error] is the value as an [error]. *)
Record Error : Type := mkError {
  Error_when : Z;
  Error_cause : error;
  Error_wrap : list error
}.

Definition Error_to_error (e : Error) : error :=
  InternalError (Error_when e) (Error_cause e) (Error_wrap e).

(** [Error.Unwrap]: the wrapped errors (nil and the empty slice are both
    the empty list). *)
Definition Error_Unwrap (e : Error) : list error := Error_wrap e.

(** [Error.Wrap(err...)]: [e.wrap = nil], then every non-nil argument is
    appended; the receiver is a copy. *)
Definition Error_Wrap (e : Error) (err : list (option error)) : Error :=
  mkError (Error_when e) (Error_cause e) (non_nil err).

Definition Error_When (e : Error) : Z := Error_when e.
Definition Error_Cause (e : Error) : error := Error_cause e.

(** [Error.Is(err)]: the cause of [e] against [err], or against the cause
    of [err] when [err] is an [Error] itself. *)
Definition Error_Is (e : Error) (err : error) : bool :=
  errors_is (Error_cause e)
            (match err with InternalError _ c _ => c | _ => err end).

(* ------------------------------------------------------------------ *)
(** ** limit.go: rendering a LimitError *)

(** [%d] of [fmt.Sprintf] on an [int64]. *)
Definition decimal (z : Z) : string :=
  DecimalString.NilEmpty.string_of_int (Z.to_int z).

(** [LimitError.Error].  [deref] resolves the Limit pointer held by the
    error ([None] for nil, on which the ceiling methods panic);
    [invalid] is the text of [internal.MakeInvalidOperationError().Error()],
    a YAML rendering that carries the time of the call. *)
Definition LimitError_Error (deref : ptr -> option Limit) (invalid : string)
           (e : LimitError) : Result string :=
  let render (eMax : Z) : string :=
    ("short " ++ IO.String (le_op e) ++ ": " ++ decimal (Accepted e)
     ++ " of " ++ decimal (Requested e) ++ " bytes (cumulative "
     ++ IO.String (le_op e) ++ " limit = " ++ decimal eMax ++ " bytes)")%string in
  if negb (Z.land (le_op e) IO.Read =? 0) then
    match deref (le_Limit e) with
    | Some l => Ok (render (rMax l))
    | None => Panic
    end
  else if negb (Z.land (le_op e) IO.Write =? 0) then
    match deref (le_Limit e) with
    | Some l => Ok (render (wMax l))
    | None => Panic
    end
  else Ok invalid.

(* ------------------------------------------------------------------ *)
(** ** Vocabulary of the further statements *)

(** The bytes of the slices that the trace [tr] shows handed to the
    writer [dst]. *)
Fixpoint written_to (dst : ref) (tr : list Event) : Z :=
  match tr with
  | [] => 0
  | EvWrite r p :: tl =>
      (if Nat.eqb r dst then len p else 0) + written_to dst tl
  | _ :: tl => written_to dst tl
  end.

Section Sequences.

Context {Ty Obj : Type} {E : Endpoint Ty Obj} {C : Copier Ty Obj}.

Local Abbreviation W := (World Ty Obj).

(** The bound endpoints that [Meter.close] closes, given the dynamic
    types of the objects. *)
Fixpoint closable (ty : ref -> Ty) (v : list (option ref)) : list ref :=
  match v with
  | [] => []
  | None :: tl => closable ty tl
  | Some r :: tl =>
      if ep_IsCloser (ty r) then r :: closable ty tl else closable ty tl
  end.

(** A caller that reads into one buffer after the other, whatever error
    each call returns, and adds up the byte counts. *)
Fixpoint Limit_Reads (l : Limit) (w : W) (ps : list (list byte))
  : Result (W * Limit * Z) :=
  match ps with
  | [] => Ok (w, l, 0)
  | p :: tl =>
      match Limit_Read l w p with
      | Ok (w1, l1, (_, n, _)) =>
          match Limit_Reads l1 w1 tl with
          | Ok (w2, l2, total) => Ok (w2, l2, n + total)
          | Panic => Panic
          | OutOfFuel => OutOfFuel
          end
      | Panic => Panic
      | OutOfFuel => OutOfFuel
      end
  end.

Fixpoint Limit_Writes (l : Limit) (w : W) (ps : list (list byte))
  : Result (W * Limit * Z) :=
  match ps with
  | [] => Ok (w, l, 0)
  | p :: tl =>
      match Limit_Write l w p with
      | Ok (w1, l1, (n, _)) =>
          match Limit_Writes l1 w1 tl with
          | Ok (w2, l2, total) => Ok (w2, l2, n + total)
          | Panic => Panic
          | OutOfFuel => OutOfFuel
          end
      | Panic => Panic
      | OutOfFuel => OutOfFuel
      end
  end.

End Sequences.

Module Scenario2.

Import Mock.

(** A read Limit with the largest ceiling whose counter was set to -1. *)
Definition lR_huge : Limit :=
  Limit_SetCountRead (NewReadLimit 7%nat (Some 0%nat) Int64.max) (-1).

(** The zero value [Limit{}]. *)
Definition l_zero : Limit := mkLimit 0%nat None 0 0.

(** Where a Limit pointer leads: address 7 holds a Limit whose read
    ceiling is 5 and whose write ceiling is 9. *)
Definition heap7 (a : ptr) : option Limit :=
  if Nat.eqb a 7 then Some (NewLimit 7%nat (Some 0%nat) 5 (Some 1%nat) 9)
  else None.

(** A plain reader of 13 bytes behind reference 0, an empty plain writer
    behind 1. *)
Definition wPlain : World Plain.Ty Plain.Obj := Plain.world2 hello.

End Scenario2.

(* ------------------------------------------------------------------ *)
(** ** Arithmetic and slices *)

Lemma Int64_wrap_ok (z : Z) : Int64.ok (Int64.wrap z).
Proof.
  unfold Int64.ok, Int64.wrap, Int64.min, Int64.max.
  pose proof (Z.mod_pos_bound (z + 2 ^ 63) (2 ^ 64)). lia.
Qed.

Lemma Int64_wrap_id (z : Z) : Int64.ok z -> Int64.wrap z = z.
Proof.
  unfold Int64.ok, Int64.wrap, Int64.min, Int64.max. intros H.
  rewrite Z.mod_small; lia.
Qed.

Lemma len_nonneg (p : list byte) : 0 <= len p.
Proof. unfold len. lia. Qed.

Lemma slice_to_inside (p : list byte) (hi : Z) :
  0 <= hi <= len p -> slice_to p hi = Some (firstn (Z.to_nat hi) p).
Proof.
  intros H. unfold slice_to.
  destruct (Z.leb_spec 0 hi); [|lia].
  destruct (Z.leb_spec hi (len p)); [reflexivity|lia].
Qed.

Lemma slice_to_negative (p : list byte) (hi : Z) :
  hi < 0 -> slice_to p hi = None.
Proof.
  intros H. unfold slice_to. destruct (Z.leb_spec 0 hi); [lia|reflexivity].
Qed.

Lemma firstn_len (p : list byte) (k : Z) :
  0 <= k <= len p -> List.length (firstn (Z.to_nat k) p) = Z.to_nat k.
Proof.
  unfold len. intros H. apply firstn_length_le. lia.
Qed.

(* ------------------------------------------------------------------ *)
(** ** Properties of Read and Write *)

Section Transfer.

Context {Ty Obj : Type} {E : Endpoint Ty Obj} {C : Copier Ty Obj}.

Local Abbreviation W := (World Ty Obj).

Lemma truncate_short (p : list byte) (rem : Z) (e : error) :
  0 <= rem < len p ->
  truncate p (len p) rem e = Some (firstn (Z.to_nat rem) p, Some e).
Proof.
  intros H. unfold truncate.
  destruct (Z.gtb_spec (len p) rem); [|lia].
  rewrite slice_to_inside by lia. reflexivity.
Qed.

Lemma truncate_whole (p : list byte) (rem : Z) (e : error) :
  len p <= rem -> truncate p (len p) rem e = Some (p, None).
Proof.
  intros H. unfold truncate.
  destruct (Z.gtb_spec (len p) rem); [lia|reflexivity].
Qed.

Lemma truncate_panics (p : list byte) (rem : Z) (e : error) :
  rem < 0 -> truncate p (len p) rem e = None.
Proof.
  intros H. unfold truncate. pose proof (len_nonneg p).
  destruct (Z.gtb_spec (len p) rem); [|lia].
  rewrite slice_to_negative by lia. reflexivity.
Qed.

(** The three ways through [Limit.Read] below a ceiling that is set and
    not yet reached. *)
Lemma Limit_Read_truncated (l : Limit) (m : Meter) (r : ref) (w : W)
      (p : list byte) (w' : W) (q : list byte) (n : Z) (err : option error) :
  Limit_Meter l = Some m -> Reader m = Some r ->
  Limit_MaxCountRead l <> Unlimited ->
  Limit_CountRead l < Limit_MaxCountRead l ->
  0 <= Limit_RemainingCountRead l < len p ->
  obj_Read w r (firstn (Z.to_nat (Limit_RemainingCountRead l)) p)
    = (w', (q, n, err)) ->
  Limit_Read l w p =
    Ok (w', with_Meter l (fst (Meter_AddCountRead m n)),
        (q ++ skipn (Z.to_nat (Limit_RemainingCountRead l)) p, n,
         match err with
         | Some e => Some e
         | None => Some (Limit_MakeReadLimitError l w (len p)
                           (Limit_RemainingCountRead l))
         end)).
Proof.
  intros Hm Hr Hmax Hlt Hrem Hobj. unfold Limit_Read. rewrite Hm, Hr.
  destruct (Z.eqb_spec (Limit_MaxCountRead l) Unlimited) as [|_];
    [contradiction|].
  destruct (Z.geb_spec (Limit_CountRead l) (Limit_MaxCountRead l)); [lia|].
  rewrite truncate_short by assumption. rewrite Hobj.
  rewrite firstn_len by lia. destruct err; reflexivity.
Qed.

Lemma Limit_Read_whole (l : Limit) (m : Meter) (r : ref) (w : W)
      (p : list byte) (w' : W) (q : list byte) (n : Z) (err : option error) :
  Limit_Meter l = Some m -> Reader m = Some r ->
  Limit_MaxCountRead l <> Unlimited ->
  Limit_CountRead l < Limit_MaxCountRead l ->
  len p <= Limit_RemainingCountRead l ->
  obj_Read w r p = (w', (q, n, err)) ->
  Limit_Read l w p =
    Ok (w', with_Meter l (fst (Meter_AddCountRead m n)), (q, n, err)).
Proof.
  intros Hm Hr Hmax Hlt Hrem Hobj. unfold Limit_Read. rewrite Hm, Hr.
  destruct (Z.eqb_spec (Limit_MaxCountRead l) Unlimited) as [|_];
    [contradiction|].
  destruct (Z.geb_spec (Limit_CountRead l) (Limit_MaxCountRead l)); [lia|].
  rewrite truncate_whole by assumption. rewrite Hobj.
  rewrite skipn_all, app_nil_r. destruct err; reflexivity.
Qed.

Lemma Limit_Read_panics (l : Limit) (m : Meter) (r : ref) (w : W)
      (p : list byte) :
  Limit_Meter l = Some m -> Reader m = Some r ->
  Limit_MaxCountRead l <> Unlimited ->
  Limit_CountRead l < Limit_MaxCountRead l ->
  Limit_RemainingCountRead l < 0 ->
  Limit_Read l w p = Panic.
Proof.
  intros Hm Hr Hmax Hlt Hrem. unfold Limit_Read. rewrite Hm, Hr.
  destruct (Z.eqb_spec (Limit_MaxCountRead l) Unlimited) as [|_];
    [contradiction|].
  destruct (Z.geb_spec (Limit_CountRead l) (Limit_MaxCountRead l)); [lia|].
  rewrite truncate_panics by assumption. reflexivity.
Qed.

(** The same three ways through [Limit.Write]. *)
Lemma Limit_Write_truncated (l : Limit) (m : Meter) (r : ref) (w : W)
      (p : list byte) (w' : W) (n : Z) (err : option error) :
  Limit_Meter l = Some m -> Writer m = Some r ->
  Limit_MaxCountWrite l <> Unlimited ->
  Limit_CountWrite l < Limit_MaxCountWrite l ->
  0 <= Limit_RemainingCountWrite l < len p ->
  obj_Write w r (firstn (Z.to_nat (Limit_RemainingCountWrite l)) p)
    = (w', (n, err)) ->
  Limit_Write l w p =
    Ok (w', with_Meter l (fst (Meter_AddCountWrite m n)),
        (n, match err with
            | Some e => Some e
            | None => Some (Limit_MakeWriteLimitError l w (len p)
                              (Limit_RemainingCountWrite l))
            end)).
Proof.
  intros Hm Hr Hmax Hlt Hrem Hobj. unfold Limit_Write. rewrite Hm, Hr.
  destruct (Z.eqb_spec (Limit_MaxCountWrite l) Unlimited) as [|_];
    [contradiction|].
  destruct (Z.geb_spec (Limit_CountWrite l) (Limit_MaxCountWrite l)); [lia|].
  rewrite truncate_short by assumption. rewrite Hobj.
  destruct err; reflexivity.
Qed.

Lemma Limit_Write_whole (l : Limit) (m : Meter) (r : ref) (w : W)
      (p : list byte) (w' : W) (n : Z) (err : option error) :
  Limit_Meter l = Some m -> Writer m = Some r ->
  Limit_MaxCountWrite l <> Unlimited ->
  Limit_CountWrite l < Limit_MaxCountWrite l ->
  len p <= Limit_RemainingCountWrite l ->
  obj_Write w r p = (w', (n, err)) ->
  Limit_Write l w p =
    Ok (w', with_Meter l (fst (Meter_AddCountWrite m n)), (n, err)).
Proof.
  intros Hm Hr Hmax Hlt Hrem Hobj. unfold Limit_Write. rewrite Hm, Hr.
  destruct (Z.eqb_spec (Limit_MaxCountWrite l) Unlimited) as [|_];
    [contradiction|].
  destruct (Z.geb_spec (Limit_CountWrite l) (Limit_MaxCountWrite l)); [lia|].
  rewrite truncate_whole by assumption. rewrite Hobj.
  destruct err; reflexivity.
Qed.

Lemma Limit_Write_panics (l : Limit) (m : Meter) (r : ref) (w : W)
      (p : list byte) :
  Limit_Meter l = Some m -> Writer m = Some r ->
  Limit_MaxCountWrite l <> Unlimited ->
  Limit_CountWrite l < Limit_MaxCountWrite l ->
  Limit_RemainingCountWrite l < 0 ->
  Limit_Write l w p = Panic.
Proof.
  intros Hm Hr Hmax Hlt Hrem. unfold Limit_Write. rewrite Hm, Hr.
  destruct (Z.eqb_spec (Limit_MaxCountWrite l) Unlimited) as [|_];
    [contradiction|].
  destruct (Z.geb_spec (Limit_CountWrite l) (Limit_MaxCountWrite l)); [lia|].
  rewrite truncate_panics by assumption. reflexivity.
Qed.

(** Remaining capacity is the plain difference whenever that difference
    is an [int64]. *)
Lemma RemainingCountRead_plain (l : Limit) :
  Int64.ok (Limit_MaxCountRead l - Limit_CountRead l) ->
  Limit_RemainingCountRead l = Limit_MaxCountRead l - Limit_CountRead l.
Proof. intros H. unfold Limit_RemainingCountRead. now apply Int64_wrap_id. Qed.

Lemma RemainingCountWrite_plain (l : Limit) :
  Int64.ok (Limit_MaxCountWrite l - Limit_CountWrite l) ->
  Limit_RemainingCountWrite l = Limit_MaxCountWrite l - Limit_CountWrite l.
Proof. intros H. unfold Limit_RemainingCountWrite. now apply Int64_wrap_id. Qed.

(** C3. When the ceiling of a direction is not [Unlimited] and the
    counter of that direction has reached or passed it, [Read] (resp.
    [Write]) on any buffer returns 0 bytes and a LimitError whose
    requested count is the length of the buffer and whose accepted count
    is 0.  The world and the Limit come back as they were: no endpoint
    was called and no counter moved. *)
Theorem C3_reached_ceiling_rejects (l : Limit) (w : W) (p : list byte) :
  (Limit_CanRead l = true ->
   Limit_MaxCountRead l <> Unlimited ->
   Limit_CountRead l >= Limit_MaxCountRead l ->
   Limit_Read l w p =
     Ok (w, l, (p, 0, Some (MakeError (now w)
                  (LimitErr (mkLimitError (self l) IO.Read (len p) 0))))))
  /\
  (Limit_CanWrite l = true ->
   Limit_MaxCountWrite l <> Unlimited ->
   Limit_CountWrite l >= Limit_MaxCountWrite l ->
   Limit_Write l w p =
     Ok (w, l, (0, Some (MakeError (now w)
                  (LimitErr (mkLimitError (self l) IO.Write (len p) 0)))))).
Proof.
  split; intros Hcan Hmax Hge.
  - unfold Limit_CanRead, Meter_CanRead in Hcan. unfold Limit_Read.
    destruct (Limit_Meter l) as [m|] eqn:Hm; [|discriminate].
    destruct (Reader m) as [r|] eqn:Hr; [|discriminate].
    destruct (Z.eqb_spec (Limit_MaxCountRead l) Unlimited) as [|_];
    [contradiction|].
    destruct (Z.geb_spec (Limit_CountRead l) (Limit_MaxCountRead l));
      [reflexivity|lia].
  - unfold Limit_CanWrite, Meter_CanWrite in Hcan. unfold Limit_Write.
    destruct (Limit_Meter l) as [m|] eqn:Hm; [|discriminate].
    destruct (Writer m) as [r|] eqn:Hr; [|discriminate].
    destruct (Z.eqb_spec (Limit_MaxCountWrite l) Unlimited) as [|_];
    [contradiction|].
    destruct (Z.geb_spec (Limit_CountWrite l) (Limit_MaxCountWrite l));
      [reflexivity|lia].
Qed.

(** C6. When [Read] (resp. [Write]) was cut short by the ceiling, so that
    a LimitError is pending, an error reported by the endpoint call is
    returned as it is and hides the pending one; only when the endpoint
    reports no error does the pending LimitError take the place of nil,
    next to the byte count of the endpoint. *)
Theorem C6_endpoint_error_hides_LimitError
        (l : Limit) (m : Meter) (r : ref) (w w' : W) (p q : list byte)
        (n : Z) (err : option error) :
  Limit_Meter l = Some m ->
  (Reader m = Some r ->
   Limit_MaxCountRead l <> Unlimited ->
   Limit_CountRead l < Limit_MaxCountRead l ->
   0 <= Limit_RemainingCountRead l < len p ->
   obj_Read w r (firstn (Z.to_nat (Limit_RemainingCountRead l)) p)
     = (w', (q, n, err)) ->
   exists l' buf,
     Limit_Read l w p =
       Ok (w', l', (buf, n,
             match err with
             | Some e => Some e
             | None => Some (MakeError (now w)
                         (LimitErr (mkLimitError (self l) IO.Read (len p)
                                      (Limit_RemainingCountRead l))))
             end)))
  /\
  (Writer m = Some r ->
   Limit_MaxCountWrite l <> Unlimited ->
   Limit_CountWrite l < Limit_MaxCountWrite l ->
   0 <= Limit_RemainingCountWrite l < len p ->
   obj_Write w r (firstn (Z.to_nat (Limit_RemainingCountWrite l)) p)
     = (w', (n, err)) ->
   exists l',
     Limit_Write l w p =
       Ok (w', l', (n,
             match err with
             | Some e => Some e
             | None => Some (MakeError (now w)
                         (LimitErr (mkLimitError (self l) IO.Write (len p)
                                      (Limit_RemainingCountWrite l))))
             end))).
Proof.
  intros Hm. split; intros Hr Hmax Hlt Hrem Hobj.
  - eexists. eexists.
    apply (Limit_Read_truncated l m r w p w' q n err); assumption.
  - eexists.
    apply (Limit_Write_truncated l m r w p w' n err); assumption.
Qed.

Lemma CountRead_after_add (l : Limit) (m : Meter) (n : Z) :
  Limit_Meter l = Some m ->
  Limit_CountRead (with_Meter l (fst (Meter_AddCountRead m n)))
    = Int64.wrap (Limit_CountRead l + n).
Proof. intros Hm. unfold Limit_CountRead. rewrite Hm. reflexivity. Qed.

Lemma CountWrite_after_add (l : Limit) (m : Meter) (n : Z) :
  Limit_Meter l = Some m ->
  Limit_CountWrite (with_Meter l (fst (Meter_AddCountWrite m n)))
    = Int64.wrap (Limit_CountWrite l + n).
Proof. intros Hm. unfold Limit_CountWrite. rewrite Hm. reflexivity. Qed.

(** Every call of an endpoint leaves one entry in the trace. *)
Lemma obj_Read_trace (w w' : W) (r : ref) (p : list byte)
      (res : list byte * Z * option error) :
  obj_Read w r p = (w', res) ->
  trace w' = trace w ++ [EvRead r (List.length p)].
Proof.
  unfold obj_Read.
  destruct (ep_Read (types w r) (objs w r) p) as [o [[q n] e]].
  intros H. inversion H; subst. reflexivity.
Qed.

Lemma obj_Write_trace (w w' : W) (r : ref) (p : list byte)
      (res : Z * option error) :
  obj_Write w r p = (w', res) -> trace w' = trace w ++ [EvWrite r p].
Proof.
  unfold obj_Write. destruct (ep_Write (types w r) (objs w r) p) as [o x].
  intros H. inversion H; subst. reflexivity.
Qed.

(** C2, amended.  Let the ceiling of a direction be set, let the buffer
    hold R bytes and let Rem = ceiling - counter satisfy 0 < Rem < R.
    [Read] (resp. [Write]) calls the endpoint once, on the first Rem
    bytes of the buffer.  Whatever that call answers, the Limit returns
    the byte count n of the endpoint and its counter has moved by n,
    nothing else of the Limit has changed; the error is the endpoint's
    when there is one, and else the LimitError with requested = R and
    accepted = Rem.  So when the endpoint
    transfers all Rem bytes and reports no error, the Limit returns Rem
    bytes, its counter has advanced by exactly Rem, and the error is
    that LimitError. *)
Theorem C2_truncated_to_remaining
        (l : Limit) (m : Meter) (r : ref) (w w' : W) (p q : list byte)
        (n : Z) (err : option error) :
  Limit_Meter l = Some m ->
  len p <= Int64.max ->
  (let Rem := Limit_MaxCountRead l - Limit_CountRead l in
   Reader m = Some r ->
   Limit_MaxCountRead l <> Unlimited ->
   Int64.ok (Limit_MaxCountRead l) ->
   0 < Rem < len p ->
   obj_Read w r (firstn (Z.to_nat Rem) p) = (w', (q, n, err)) ->
   exists l',
     Limit_Read l w p =
       Ok (w', l', (q ++ skipn (Z.to_nat Rem) p, n,
             match err with
             | Some e => Some e
             | None =>
                 Some (MakeError (now w)
                   (LimitErr (mkLimitError (self l) IO.Read (len p) Rem)))
             end))
     /\ trace w' = trace w ++ [EvRead r (Z.to_nat Rem)]
     /\ l' = with_Meter l (fst (Meter_AddCountRead m n))
     /\ Limit_CountRead l' = Int64.wrap (Limit_CountRead l + n)
     /\ (n = Rem -> Limit_CountRead l' = Limit_CountRead l + Rem))
  /\
  (let Rem := Limit_MaxCountWrite l - Limit_CountWrite l in
   Writer m = Some r ->
   Limit_MaxCountWrite l <> Unlimited ->
   Int64.ok (Limit_MaxCountWrite l) ->
   0 < Rem < len p ->
   obj_Write w r (firstn (Z.to_nat Rem) p) = (w', (n, err)) ->
   exists l',
     Limit_Write l w p =
       Ok (w', l', (n,
             match err with
             | Some e => Some e
             | None =>
                 Some (MakeError (now w)
                   (LimitErr (mkLimitError (self l) IO.Write (len p) Rem)))
             end))
     /\ trace w' = trace w ++ [EvWrite r (firstn (Z.to_nat Rem) p)]
     /\ l' = with_Meter l (fst (Meter_AddCountWrite m n))
     /\ Limit_CountWrite l' = Int64.wrap (Limit_CountWrite l + n)
     /\ (n = Rem -> Limit_CountWrite l' = Limit_CountWrite l + Rem)).
Proof.
  intros Hm Hlen. split; intros Rem Hr Hmax Hok Hrem Hobj.
  - assert (Hplain : Limit_RemainingCountRead l = Rem).
    { apply RemainingCountRead_plain. fold Rem.
      unfold Int64.ok, Int64.min, Int64.max in *. lia. }
    pose proof (obj_Read_trace _ _ _ _ _ Hobj) as Htr.
    rewrite length_firstn in Htr.
    replace (Nat.min (Z.to_nat Rem) (List.length p)) with (Z.to_nat Rem)
      in Htr by (unfold len in Hrem; lia).
    rewrite <- Hplain in Hobj.
    exists (with_Meter l (fst (Meter_AddCountRead m n))).
    split; [|split; [exact Htr|split; [reflexivity|split]]].
    + rewrite (Limit_Read_truncated l m r w p w' q n err Hm Hr Hmax);
        [rewrite Hplain; reflexivity | lia | lia | exact Hobj].
    + now apply CountRead_after_add.
    + intros ->. rewrite CountRead_after_add by assumption.
      apply Int64_wrap_id.
      replace (Limit_CountRead l + Rem) with (Limit_MaxCountRead l)
        by (unfold Rem; ring).
      assumption.
  - assert (Hplain : Limit_RemainingCountWrite l = Rem).
    { apply RemainingCountWrite_plain. fold Rem.
      unfold Int64.ok, Int64.min, Int64.max in *. lia. }
    pose proof (obj_Write_trace _ _ _ _ _ Hobj) as Htr.
    rewrite <- Hplain in Hobj.
    exists (with_Meter l (fst (Meter_AddCountWrite m n))).
    split; [|split; [exact Htr|split; [reflexivity|split]]].
    + rewrite (Limit_Write_truncated l m r w p w' n err Hm Hr Hmax);
        [rewrite Hplain; reflexivity | lia | lia | exact Hobj].
    + now apply CountWrite_after_add.
    + intros ->. rewrite CountWrite_after_add by assumption.
      apply Int64_wrap_id.
      replace (Limit_CountWrite l + Rem) with (Limit_MaxCountWrite l)
        by (unfold Rem; ring).
      assumption.
Qed.

End Transfer.

(* ------------------------------------------------------------------ *)
(** ** The Meter counts what the endpoint reports *)

Section Counting.

Context {Ty Obj : Type} {E : Endpoint Ty Obj} {C : Copier Ty Obj}.

Local Abbreviation W := (World Ty Obj).

(** C7. [Meter.Read] (resp. [Meter.Write]) hands the whole buffer to the
    endpoint and adds to its read (resp. write) counter the count [n]
    that the endpoint returned, whatever the length of the buffer and
    whether or not an error came with it; the other counter and the
    bindings stay.  Without a binding nothing moves.  The counter
    operations do what their names say: Add adds (with [int64]
    wrap-around), Set overwrites, Reset stores zero.  ([CanRead],
    [CanWrite], the [Count] getters and [Close] produce no new Meter
    in this embedding: their source stores to no counter.) *)
Theorem C7_counter_moves_by_transferred (m : Meter) (w : W) (p : list byte) :
  (forall r w' q n err,
      Reader m = Some r ->
      obj_Read w r p = (w', (q, n, err)) ->
      exists m',
        Meter_Read m w p = (w', m', (q, n, err))
        /\ Meter_CountRead m' = Int64.wrap (Meter_CountRead m + n)
        /\ (Int64.ok (Meter_CountRead m + n) ->
            Meter_CountRead m' = Meter_CountRead m + n)
        /\ Meter_CountWrite m' = Meter_CountWrite m
        /\ Reader m' = Reader m /\ Writer m' = Writer m)
  /\ (forall r w' n err,
      Writer m = Some r ->
      obj_Write w r p = (w', (n, err)) ->
      exists m',
        Meter_Write m w p = (w', m', (n, err))
        /\ Meter_CountWrite m' = Int64.wrap (Meter_CountWrite m + n)
        /\ (Int64.ok (Meter_CountWrite m + n) ->
            Meter_CountWrite m' = Meter_CountWrite m + n)
        /\ Meter_CountRead m' = Meter_CountRead m
        /\ Reader m' = Reader m /\ Writer m' = Writer m)
  /\ (Reader m = None ->
      Meter_Read m w p = (w, m, (p, 0, Some io_ErrClosedPipe)))
  /\ (Writer m = None ->
      Meter_Write m w p = (w, m, (0, Some io_ErrClosedPipe)))
  /\ (forall r x,
      Meter_Count (fst (Meter_AddCount m r x))
        = (Int64.wrap (Meter_CountRead m + r),
           Int64.wrap (Meter_CountWrite m + x))
      /\ Meter_Count (Meter_SetCount m r x) = (r, x)
      /\ Meter_Count (Meter_ResetCount m) = (0, 0)).
Proof.
  split; [|split; [|split; [|split]]].
  - intros r w' q n err Hr Hobj. unfold Meter_Read. rewrite Hr, Hobj.
    eexists. split; [reflexivity|]. split; [reflexivity|].
    split; [|repeat split; simpl; auto].
    intros Hok. simpl. unfold Meter_CountRead. now apply Int64_wrap_id.
  - intros r w' n err Hr Hobj. unfold Meter_Write. rewrite Hr, Hobj.
    eexists. split; [reflexivity|]. split; [reflexivity|].
    split; [|repeat split; simpl; auto].
    intros Hok. simpl. unfold Meter_CountWrite. now apply Int64_wrap_id.
  - intros Hr. unfold Meter_Read. now rewrite Hr.
  - intros Hr. unfold Meter_Write. now rewrite Hr.
  - intros r x. repeat split.
Qed.

End Counting.

(* ------------------------------------------------------------------ *)
(** ** An unlimited direction is the Meter *)

Section UnlimitedCeiling.

Context {Ty Obj : Type} {E : Endpoint Ty Obj} {C : Copier Ty Obj}.

Local Abbreviation W := (World Ty Obj).

Lemma with_Meter_same (l : Limit) (m : Meter) :
  Limit_Meter l = Some m -> with_Meter l m = l.
Proof. destruct l. simpl. intros ->. reflexivity. Qed.

Lemma Limit_Read_unlimited (l : Limit) (m : Meter) (w : W) (p : list byte) :
  Limit_Meter l = Some m -> Limit_MaxCountRead l = Unlimited ->
  Limit_Read l w p = via_Meter l (Ok (Meter_Read m w p)).
Proof.
  intros Hm Hmax. unfold Limit_Read, Meter_Read, via_Meter.
  rewrite Hm, Hmax.
  destruct (Reader m) as [r|]; [|now rewrite with_Meter_same].
  simpl. destruct (obj_Read w r p) as [w' [[q n] err]]. reflexivity.
Qed.

Lemma Limit_Write_unlimited (l : Limit) (m : Meter) (w : W) (p : list byte) :
  Limit_Meter l = Some m -> Limit_MaxCountWrite l = Unlimited ->
  Limit_Write l w p = via_Meter l (Ok (Meter_Write m w p)).
Proof.
  intros Hm Hmax. unfold Limit_Write, Meter_Write, via_Meter.
  rewrite Hm, Hmax.
  destruct (Writer m) as [r|]; [|now rewrite with_Meter_same].
  simpl. destruct (obj_Write w r p) as [w' [n err]]. reflexivity.
Qed.

Lemma Limit_ReadFrom_unlimited (fuel : nat) (l : Limit) (m : Meter) (w : W)
      (src : ref) :
  Limit_Meter l = Some m -> Limit_MaxCountWrite l = Unlimited ->
  Limit_ReadFrom fuel l w src = via_Meter l (Meter_ReadFrom fuel m w src).
Proof.
  intros Hm Hmax. unfold Limit_ReadFrom, Meter_ReadFrom, via_Meter.
  rewrite Hm, Hmax.
  destruct (Writer m) as [r|]; [|now rewrite with_Meter_same].
  simpl. destruct (io_Copy fuel w r (SrcObj src)) as [[w' [n err]]| |];
    reflexivity.
Qed.

Lemma Limit_WriteTo_unlimited (fuel : nat) (l : Limit) (m : Meter) (w : W)
      (dst : ref) :
  Limit_Meter l = Some m -> Limit_MaxCountRead l = Unlimited ->
  Limit_WriteTo fuel l w dst = via_Meter l (Meter_WriteTo fuel m w dst).
Proof.
  intros Hm Hmax. unfold Limit_WriteTo, Meter_WriteTo, via_Meter.
  rewrite Hm, Hmax.
  destruct (Reader m) as [r|]; [|now rewrite with_Meter_same].
  simpl. destruct (io_Copy fuel w dst (SrcObj r)) as [[w' [n err]]| |];
    reflexivity.
Qed.

(** C4. On a Limit whose ceiling of a direction is [Unlimited], each of
    the four transfer operations of that direction returns what the same
    call on the embedded Meter returns (same world, same byte count, same
    error) and leaves the Meter in the state that call leaves it in,
    whatever the counters hold.  This is so in particular right after
    the ceiling was set to [Unlimited], whatever it was before. *)
Theorem C4_unlimited_is_the_Meter (l : Limit) (m : Meter) (w : W) :
  Limit_Meter l = Some m ->
  (Limit_MaxCountRead l = Unlimited ->
   (forall p, Limit_Read l w p = via_Meter l (Ok (Meter_Read m w p)))
   /\ (forall fuel dst,
         Limit_WriteTo fuel l w dst = via_Meter l (Meter_WriteTo fuel m w dst)))
  /\
  (Limit_MaxCountWrite l = Unlimited ->
   (forall p, Limit_Write l w p = via_Meter l (Ok (Meter_Write m w p)))
   /\ (forall fuel src,
         Limit_ReadFrom fuel l w src
           = via_Meter l (Meter_ReadFrom fuel m w src)))
  /\
  (let l' := Limit_SetMaxCountRead l Unlimited in
   (forall p, Limit_Read l' w p = via_Meter l' (Ok (Meter_Read m w p)))
   /\ (forall fuel dst,
         Limit_WriteTo fuel l' w dst
           = via_Meter l' (Meter_WriteTo fuel m w dst)))
  /\
  (let l' := Limit_SetMaxCountWrite l Unlimited in
   (forall p, Limit_Write l' w p = via_Meter l' (Ok (Meter_Write m w p)))
   /\ (forall fuel src,
         Limit_ReadFrom fuel l' w src
           = via_Meter l' (Meter_ReadFrom fuel m w src))).
Proof.
  intros Hm. repeat split; intros.
  - now apply Limit_Read_unlimited.
  - now apply Limit_WriteTo_unlimited.
  - now apply Limit_Write_unlimited.
  - now apply Limit_ReadFrom_unlimited.
  - now apply Limit_Read_unlimited.
  - now apply Limit_WriteTo_unlimited.
  - now apply Limit_Write_unlimited.
  - now apply Limit_ReadFrom_unlimited.
Qed.

End UnlimitedCeiling.

(* ------------------------------------------------------------------ *)
(** ** Draining with no capacity left *)

Section NoCapacity.

Context {Ty Obj : Type} {E : Endpoint Ty Obj} {C : Copier Ty Obj}.

Local Abbreviation W := (World Ty Obj).

(** With a ceiling set and no capacity left, [ReadFrom] touches neither
    source nor writer and moves no counter; the requested count of its
    LimitError is the remaining capacity itself. *)
Lemma Limit_ReadFrom_no_capacity (fuel : nat) (l : Limit) (w : W) (src : ref) :
  Limit_CanWrite l = true ->
  Limit_MaxCountWrite l <> Unlimited ->
  Limit_RemainingCountWrite l <= 0 ->
  Limit_ReadFrom fuel l w src =
    Ok (w, l, (0, Some (MakeError (now w)
                 (LimitErr (mkLimitError (self l) IO.Write
                              (Limit_RemainingCountWrite l) 0))))).
Proof.
  unfold Limit_CanWrite, Meter_CanWrite, Limit_ReadFrom.
  intros Hcan Hmax Hrem.
  destruct (Limit_Meter l) as [m|] eqn:Hm; [|discriminate].
  destruct (Writer m) as [r|] eqn:Hr; [|discriminate].
  destruct (Z.eqb_spec (Limit_MaxCountWrite l) Unlimited) as [|_];
    [contradiction|].
  destruct (Z.leb_spec (Limit_RemainingCountWrite l) 0); [reflexivity|lia].
Qed.

Lemma Limit_WriteTo_no_capacity (fuel : nat) (l : Limit) (w : W) (dst : ref) :
  Limit_CanRead l = true ->
  Limit_MaxCountRead l <> Unlimited ->
  Limit_RemainingCountRead l <= 0 ->
  Limit_WriteTo fuel l w dst =
    Ok (w, l, (0, Some (MakeError (now w)
                 (LimitErr (mkLimitError (self l) IO.Read
                              (Limit_RemainingCountRead l) 0))))).
Proof.
  unfold Limit_CanRead, Meter_CanRead, Limit_WriteTo.
  intros Hcan Hmax Hrem.
  destruct (Limit_Meter l) as [m|] eqn:Hm; [|discriminate].
  destruct (Reader m) as [r|] eqn:Hr; [|discriminate].
  destruct (Z.eqb_spec (Limit_MaxCountRead l) Unlimited) as [|_];
    [contradiction|].
  destruct (Z.leb_spec (Limit_RemainingCountRead l) 0); [reflexivity|lia].
Qed.

End NoCapacity.

(** C1, at an input where the code departs from it.  A write Limit with
    ceiling 13 took 13 bytes and then had its ceiling lowered to 5, so
    that 5 - 13 = -8 bytes remain.  [ReadFrom] returns 0 bytes, calls no
    endpoint and moves no counter, but the LimitError it returns has
    requested = -8, not 0; [WriteTo] does the same on the read side. *)
Theorem C1_requested_is_the_remaining_capacity :
  Limit_MaxCountWrite Scenario.lW_lowered <> Unlimited
  /\ Limit_RemainingCountWrite Scenario.lW_lowered = -8
  /\ Limit_ReadFrom 1 Scenario.lW_lowered Scenario.wA 0%nat =
       Ok (Scenario.wA, Scenario.lW_lowered,
           (0, Some (MakeError 0
                  (LimitErr (mkLimitError 7%nat IO.Write (-8) 0)))))
  /\ Limit_MaxCountRead Scenario.lR_lowered <> Unlimited
  /\ Limit_RemainingCountRead Scenario.lR_lowered = -8
  /\ Limit_WriteTo 1 Scenario.lR_lowered Scenario.wA 1%nat =
       Ok (Scenario.wA, Scenario.lR_lowered,
           (0, Some (MakeError 0
                  (LimitErr (mkLimitError 7%nat IO.Read (-8) 0))))).
Proof.
  split; [discriminate|]. split; [reflexivity|].
  split; [apply (Limit_ReadFrom_no_capacity 1 Scenario.lW_lowered Scenario.wA);
          [reflexivity | discriminate | discriminate]|].
  split; [discriminate|]. split; [reflexivity|].
  apply (Limit_WriteTo_no_capacity 1 Scenario.lR_lowered Scenario.wA);
    [reflexivity | discriminate | discriminate].
Qed.

(* ------------------------------------------------------------------ *)
(** ** Joined errors *)

Lemma errors_is_Join (l : list error) (t : error) :
  errors_is (JoinError l) t = existsb (fun e => errors_is e t) l.
Proof.
  simpl. rewrite andb_false_r. reflexivity.
Qed.

Lemma errors_is_Opaque_refl (id : string) :
  errors_is (Opaque id) (Opaque id) = true.
Proof.
  simpl. rewrite String.eqb_refl. reflexivity.
Qed.

Lemma Join_pair_nil (a e : option error) :
  errors_Join [a; e] = None <-> a = None /\ e = None.
Proof.
  destruct a, e; unfold errors_Join; simpl; split;
    try discriminate; try tauto; intros [? ?]; discriminate.
Qed.

Lemma Join_pair_left (a e : option error) (t : error) :
  errors_Is a (Some t) = true -> errors_Is (errors_Join [a; e]) (Some t) = true.
Proof.
  destruct a as [a|]; [|discriminate]. simpl. intros H.
  destruct e as [b|].
  - change (errors_is (JoinError [a; b]) t = true).
    rewrite errors_is_Join. simpl. rewrite H. reflexivity.
  - change (errors_is (JoinError [a]) t = true).
    rewrite errors_is_Join. simpl. rewrite H. reflexivity.
Qed.

Lemma Join_pair_right (a : option error) (e t : error) :
  errors_is e t = true -> errors_Is (errors_Join [a; Some e]) (Some t) = true.
Proof.
  intros H.
  destruct a as [a|].
  - change (errors_is (JoinError [a; e]) t = true).
    rewrite errors_is_Join. simpl. rewrite H. apply orb_true_r.
  - change (errors_is (JoinError [e]) t = true).
    rewrite errors_is_Join. simpl. rewrite H. reflexivity.
Qed.

(** Joining one result after the other, as the loop of [Meter.close]
    does, starting from [acc]. *)
Local Abbreviation join_all es acc :=
  (fold_left (fun a e => errors_Join [a; e]) es acc).

Lemma join_all_nil (es : list (option error)) :
  forall acc, join_all es acc = None
              <-> acc = None /\ forall e, In e es -> e = None.
Proof.
  induction es as [|x es IH]; intros acc; simpl.
  - split; [intros ->; split; [reflexivity|contradiction] | tauto].
  - rewrite IH, Join_pair_nil. split.
    + intros [[-> ->] H]. split; [reflexivity|]. intros e [<-|Hin]; auto.
    + intros [-> H]. repeat split; auto.
Qed.

Lemma join_all_matches (es : list (option error)) (t : error) :
  forall acc,
    errors_Is acc (Some t) = true
    \/ (exists e, In (Some e) es /\ errors_is e t = true) ->
    errors_Is (join_all es acc) (Some t) = true.
Proof.
  induction es as [|x es IH]; intros acc [H|(e & Hin & He)]; simpl.
  - exact H.
  - contradiction.
  - apply IH. left. now apply Join_pair_left.
  - destruct Hin as [->|Hin].
    + apply IH. left. now apply Join_pair_right.
    + apply IH. right. exists e. auto.
Qed.

(* ------------------------------------------------------------------ *)
(** ** Close *)

Section Closing.

Context {Ty Obj : Type} {E : Endpoint Ty Obj} {C : Copier Ty Obj}.

Local Abbreviation W := (World Ty Obj).

Lemma obj_Close_world (w w' : W) (r : ref) (e : option error) :
  obj_Close w r = (w', e) ->
  types w' = types w /\ trace w' = trace w ++ [EvClose r].
Proof.
  unfold obj_Close. destruct (ep_Close (types w r) (objs w r)) as [o err].
  intros H. inversion H; subst. simpl. auto.
Qed.

Lemma close_step_closer (w w1 : W) (acc e : option error) (r : ref) :
  ep_IsCloser (types w r) = true -> obj_Close w r = (w1, e) ->
  close_step (w, acc) (Some r) = (w1, errors_Join [acc; e]).
Proof. intros Hc Hcl. unfold close_step. now rewrite Hc, Hcl. Qed.

Lemma close_step_no_closer (w : W) (acc : option error) (r : ref) :
  ep_IsCloser (types w r) = false -> close_step (w, acc) (Some r) = (w, acc).
Proof. intros Hc. unfold close_step. now rewrite Hc. Qed.

(** The loop of [Meter.close] against the relation [closes]. *)
Lemma close_loop (v : list (option ref)) :
  forall (w : W) (acc : option error),
  exists calls w',
    fold_left close_step v (w, acc) = (w', join_all (map snd calls) acc)
    /\ closes w v calls w'
    /\ trace w' = trace w ++ map (fun c => EvClose (fst c)) calls.
Proof.
  induction v as [|[r|] v IH]; intros w acc; cbn [fold_left].
  - exists [], w. simpl. rewrite app_nil_r. repeat split. constructor.
  - destruct (ep_IsCloser (types w r)) eqn:Hc.
    + destruct (obj_Close w r) as [w1 e] eqn:Hcl.
      rewrite (close_step_closer w w1 acc e r Hc Hcl).
      destruct (IH w1 (errors_Join [acc; e])) as (calls & w' & Hf & Hcs & Htr).
      exists ((r, e) :: calls), w'. split; [exact Hf|]. split.
      * eapply closes_closer; eauto.
      * rewrite Htr. destruct (obj_Close_world _ _ _ _ Hcl) as [_ ->].
        rewrite <- app_assoc. reflexivity.
    + rewrite (close_step_no_closer w acc r Hc).
      destruct (IH w acc) as (calls & w' & Hf & Hcs & Htr).
      exists calls, w'. split; [exact Hf|]. split; [|exact Htr].
      now apply closes_no_closer.
  - destruct (IH w acc) as (calls & w' & Hf & Hcs & Htr).
    exists calls, w'. split; [exact Hf|]. split; [|exact Htr].
    now apply closes_unbound.
Qed.

(** C8. [Meter.Close] returns nil, and calls nothing, when no bound
    endpoint has a close capability.  In general it closes the closable
    endpoint bound for reading first and the one bound for writing
    second ([closes] and the trace say so), and joins what the closes
    returned: the result is nil exactly when every close that was called
    returned nil, and it matches, under [errors.Is], every target that
    one of the returned errors matches -- each comparable close error
    itself among them.  [Limit.Close] is the [Close] of the embedded
    Meter, and nil without one. *)
Theorem C8_Close_joins_the_closes (m : Meter) (w : W) :
  ((forall r, In (Some r) [Reader m; Writer m] ->
              ep_IsCloser (types w r) = false) ->
   Meter_Close m w = (w, None))
  /\ (exists calls w' err,
        Meter_Close m w = (w', err)
        /\ closes w [Reader m; Writer m] calls w'
        /\ trace w' = trace w ++ map (fun c => EvClose (fst c)) calls
        /\ (err = None <-> forall c, In c calls -> snd c = None)
        /\ (forall r e t,
              In (r, Some e) calls -> errors_is e t = true ->
              errors_Is err (Some t) = true)
        /\ (forall r id,
              In (r, Some (Opaque id)) calls ->
              errors_Is err (Some (Opaque id)) = true))
  /\ (forall l, Limit_Meter l = Some m -> Limit_Close l w = Meter_Close m w)
  /\ (forall l, Limit_Meter l = None -> Limit_Close l w = (w, None)).
Proof.
  split; [|split; [|split]].
  - intros Hno. unfold Meter_Close, Meter_close. cbn [fold_left].
    assert (H1 : close_step (w, None) (Reader m) = (w, None)).
    { destruct (Reader m) as [r|] eqn:Hr; [|reflexivity].
      apply close_step_no_closer. apply Hno. simpl. auto. }
    rewrite H1.
    destruct (Writer m) as [r|] eqn:Hr; [|reflexivity].
    apply close_step_no_closer. apply Hno. simpl. auto.
  - destruct (close_loop [Reader m; Writer m] w None)
      as (calls & w' & Hf & Hcs & Htr).
    exists calls, w', (join_all (map snd calls) None).
    assert (Hmatch : forall r e t,
               In (r, Some e) calls -> errors_is e t = true ->
               errors_Is (join_all (map snd calls) None) (Some t) = true).
    { intros r e t Hin He. apply join_all_matches. right. exists e.
      split; [|exact He]. change (Some e) with (snd (r, Some e)).
      now apply in_map. }
    repeat split; auto.
    + intros Hnil [r e] Hin. apply join_all_nil in Hnil.
      apply (proj2 Hnil). now apply (in_map snd) in Hin.
    + intros Hall. apply join_all_nil. split; [reflexivity|].
      intros e Hin. apply in_map_iff in Hin. destruct Hin as (c & <- & Hc).
      now apply Hall.
    + intros r id Hin. apply (Hmatch r (Opaque id)); [exact Hin|].
      apply errors_is_Opaque_refl.
  - intros l Hm. unfold Limit_Close. now rewrite Hm.
  - intros l Hm. unfold Limit_Close. now rewrite Hm.
Qed.

(** C10. A Meter made by [NewReadWriteMeter(rw)] binds the one object
    [rw] twice.  When [rw] has a close capability, one [Close] of the
    Meter calls [rw]'s close two times in a row -- the second call finds
    the object as the first one left it -- and returns the join of the
    two results. *)
Theorem C10_ReadWriteMeter_closes_twice
        (rw : ref) (w w1 w2 : W) (e1 e2 : option error) :
  ep_IsCloser (types w rw) = true ->
  obj_Close w rw = (w1, e1) ->
  obj_Close w1 rw = (w2, e2) ->
  Meter_Close (NewReadWriteMeter (Some rw)) w
    = (w2, errors_Join [errors_Join [None; e1]; e2])
  /\ trace w2 = trace w ++ [EvClose rw; EvClose rw]
  /\ closes w [Some rw; Some rw] [(rw, e1); (rw, e2)] w2.
Proof.
  intros Hc H1 H2.
  destruct (obj_Close_world _ _ _ _ H1) as [Ht1 Htr1].
  destruct (obj_Close_world _ _ _ _ H2) as [Ht2 Htr2].
  assert (Hc1 : ep_IsCloser (types w1 rw) = true) by now rewrite Ht1.
  split; [|split].
  - unfold Meter_Close, Meter_close, NewReadWriteMeter. cbn [Reader Writer fold_left].
    rewrite (close_step_closer w w1 None e1 rw Hc H1).
    apply (close_step_closer w1 w2 _ e2 rw Hc1 H2).
  - rewrite Htr2, Htr1, <- app_assoc. reflexivity.
  - eapply closes_closer; eauto. eapply closes_closer; eauto. constructor.
Qed.

End Closing.

(* ------------------------------------------------------------------ *)
(** ** Bounded drains *)

Lemma Int64_wrap_nonneg (z : Z) :
  0 <= z < 2 ^ 64 -> 0 <= Int64.wrap z -> Int64.wrap z = z.
Proof.
  unfold Int64.wrap. intros Hz Hw.
  pose proof (Z.mod_pos_bound (z + 2 ^ 63) (2 ^ 64)) as Hb.
  pose proof (Z.div_mod (z + 2 ^ 63) (2 ^ 64)) as Hd.
  assert (Hq : (z + 2 ^ 63) / 2 ^ 64 = 0) by lia.
  rewrite Hq in Hd. lia.
Qed.

Section Draining.

Context {Ty Obj : Type} {E : Endpoint Ty Obj} {C : Copier Ty Obj}.

Local Abbreviation W := (World Ty Obj).

Lemma obj_Read_within (w w' : W) (r : ref) (p q : list byte) (n : Z)
      (err : option error) :
  reads_within -> obj_Read w r p = (w', (q, n, err)) ->
  0 <= n <= len p /\ trace w' = trace w ++ [EvRead r (List.length p)].
Proof.
  intros HR. unfold obj_Read. specialize (HR (types w r) (objs w r) p).
  destruct (ep_Read (types w r) (objs w r) p) as [o [[q0 n0] e0]].
  simpl in HR. intros H. inversion H; subst. simpl. auto.
Qed.

Lemma obj_Write_within (w w' : W) (r : ref) (p : list byte) (n : Z)
      (err : option error) :
  writes_within -> obj_Write w r p = (w', (n, err)) ->
  0 <= n <= len p /\ trace w' = trace w ++ [EvWrite r p].
Proof.
  intros HW. unfold obj_Write. specialize (HW (types w r) (objs w r) p).
  destruct (ep_Write (types w r) (objs w r) p) as [o [n0 e0]].
  simpl in HW. intros H. inversion H; subst. simpl. auto.
Qed.

(** A [LimitedReader] over a well-behaved reader hands out at most the
    [N] bytes it has left and counts them down. *)
Lemma LimitedReader_Read_within (w w' : W) (l l' : LimitedReader)
      (p q : list byte) (n : Z) (err : option error) :
  reads_within ->
  0 <= lr_N l <= Int64.max ->
  LimitedReader_Read w l p = (w', l', (q, n, err)) ->
  0 <= n <= lr_N l /\ lr_N l' = lr_N l - n /\ lr_R l' = lr_R l.
Proof.
  intros HR HN. unfold LimitedReader_Read.
  destruct (Z.leb_spec (lr_N l) 0) as [H0|H0].
  - intros H. inversion H; subst. repeat split; lia.
  - destruct (obj_Read w (lr_R l)
                (firstn (if len p >? lr_N l then Z.to_nat (lr_N l)
                         else List.length p) p))
      as [w1 [[q1 n1] e1]] eqn:Hobj.
    intros H. inversion H; subst. simpl.
    apply (obj_Read_within _ _ _ _ _ _ _ HR) in Hobj. destruct Hobj as [Hn _].
    assert (Hlen : len (firstn (if len p >? lr_N l then Z.to_nat (lr_N l)
                                else List.length p) p) <= lr_N l).
    { unfold len in *. rewrite length_firstn.
      destruct (Z.gtb_spec (Z.of_nat (List.length p)) (lr_N l)); lia. }
    split; [lia|]. split; [|reflexivity].
    apply Int64_wrap_id. unfold Int64.ok, Int64.min, Int64.max in *. lia.
Qed.

Lemma copy_loop_step (fuel : nat) (w : W) (dst : ref) (src : Source)
      (buf : list byte) (written : Z) :
  copy_loop (S fuel) w dst src buf written =
    let '(w1, src1, (buf1, nr, er)) := Source_Read w src buf in
    let after (w' : W) (written' : Z) :=
      match er with
      | Some e => Ok (w', (written', if is_EOF e then None else Some e))
      | None => copy_loop fuel w' dst src1 buf1 written'
      end in
    if nr >? 0 then
      match slice_to buf1 nr with
      | None => Panic
      | Some chunk =>
          let '(w2, (nw0, ew0)) := obj_Write w1 dst chunk in
          let '(nw, ew) :=
            if (nw0 <? 0) || (nr <? nw0)
            then (0, Some (match ew0 with
                           | Some e => e
                           | None => io_errInvalidWrite
                           end))
            else (nw0, ew0) in
          let written' := Int64.wrap (written + nw) in
          match ew with
          | Some e => Ok (w2, (written', Some e))
          | None =>
              if negb (nr =? nw)
              then Ok (w2, (written', Some io_ErrShortWrite))
              else after w2 written'
          end
      end
    else after w1 written.
Proof. reflexivity. Qed.

(** The loop of [io.Copy] over a [LimitedReader] with [N] bytes left adds
    at most [N] to what it has written. *)
Lemma copy_loop_limited_bound :
  reads_within ->
  forall (fuel : nat) (w : W) (dst src : ref) (N : Z) (buf : list byte)
         (written : Z) (w' : W) (n : Z) (err : option error),
    0 <= N -> 0 <= written -> written + N <= Int64.max ->
    copy_loop fuel w dst (SrcLimited (mkLimitedReader src N)) buf written
      = Ok (w', (n, err)) ->
    written <= n <= written + N.
Proof.
  intros HR. induction fuel as [|fuel IH];
    intros w dst src N buf written w' n err HN Hw Hsum; [discriminate|].
  rewrite copy_loop_step. unfold Source_Read.
  destruct (LimitedReader_Read w (mkLimitedReader src N) buf)
    as [[w1 l1] [[buf1 nr] er]] eqn:HLR.
  apply (LimitedReader_Read_within _ _ _ _ _ _ _ _ HR) in HLR;
    [|simpl; lia].
  destruct l1 as [src1 N1]. simpl in HLR. destruct HLR as (Hnr & HN1 & Hsrc).
  subst src1 N1. cbv zeta.
  assert (Hafter : forall w0 written0,
             written <= written0 <= written + nr ->
             match er with
             | Some e => Ok (w0, (written0, if is_EOF e then None else Some e))
             | None => copy_loop fuel w0 dst
                         (SrcLimited (mkLimitedReader src (N - nr)))
                         buf1 written0
             end = Ok (w', (n, err)) ->
             written <= n <= written + N).
  { intros w0 written0 Hw0. destruct er as [e|].
    - intros H. inversion H; subst. lia.
    - intros H. apply IH in H; lia. }
  destruct (Z.gtb_spec nr 0) as [Hpos|Hzero].
  - destruct (slice_to buf1 nr) as [chunk|]; [|discriminate].
    destruct (obj_Write w1 dst chunk) as [w2 [nw0 ew0]].
    destruct ((nw0 <? 0) || (nr <? nw0)) eqn:Hbad.
    + rewrite Z.add_0_r.
      rewrite (Int64_wrap_id written)
        by (unfold Int64.ok, Int64.min, Int64.max in *; lia).
      intros H. inversion H; subst. lia.
    + apply orb_false_iff in Hbad. destruct Hbad as [Hb1 Hb2].
      apply Z.ltb_ge in Hb1. apply Z.ltb_ge in Hb2.
      rewrite (Int64_wrap_id (written + nw0))
        by (unfold Int64.ok, Int64.min, Int64.max in *; lia).
      destruct ew0 as [e|].
      * intros H. inversion H; subst. lia.
      * destruct (negb (nr =? nw0)).
        -- intros H. inversion H; subst. lia.
        -- apply Hafter. lia.
  - apply Hafter. lia.
Qed.

(** The source of [io.CopyN] is a [LimitedReader], which has no
    [WriteTo]: the copy goes to the [ReadFrom] of the destination, or
    through the loop. *)
Lemma io_Copy_limited (fuel : nat) (w : W) (dst : ref) (l : LimitedReader) :
  io_Copy fuel w dst (SrcLimited l) =
    if ep_IsReaderFrom (types w dst)
    then ep_ReadFrom fuel w dst (SrcLimited l)
    else copy_loop fuel w dst (SrcLimited l)
           (make (copy_size (SrcLimited l))) 0.
Proof. reflexivity. Qed.

Lemma io_Copy_limited_bound (fuel : nat) (w w' : W) (dst src : ref)
      (n0 n : Z) (err : option error) :
  reads_within -> readfrom_within -> 0 < n0 <= Int64.max ->
  io_Copy fuel w dst (SrcLimited (mkLimitedReader src n0)) = Ok (w', (n, err)) ->
  0 <= n <= n0.
Proof.
  intros HR HF Hn0. rewrite io_Copy_limited.
  destruct (ep_IsReaderFrom (types w dst)) eqn:Hrf; intros H.
  - apply (HF _ _ _ _ _ _ _ Hrf) in H; simpl in *; lia.
  - apply (copy_loop_limited_bound HR) in H; lia.
Qed.

Lemma io_CopyN_bound (fuel : nat) (w w' : W) (dst src : ref) (n0 n : Z)
      (err : option error) :
  reads_within -> readfrom_within -> 0 < n0 <= Int64.max ->
  io_CopyN fuel w dst src n0 = Ok (w', (n, err)) ->
  0 <= n <= n0.
Proof.
  intros HR HF Hn0. unfold io_CopyN.
  destruct (io_Copy fuel w dst (SrcLimited (mkLimitedReader src n0)))
    as [[w1 [written e]]| |] eqn:Hloop; try discriminate.
  apply (io_Copy_limited_bound _ _ _ _ _ _ _ _ HR HF Hn0) in Hloop.
  destruct (written =? n0).
  - intros H. inversion H; subst. lia.
  - destruct ((written <? n0) && match e with None => true | Some _ => false end);
      intros H; inversion H; subst; lia.
Qed.

(** [io.CopyN] reports no error once the loop has written all [n0]
    bytes, whatever error the loop ended with. *)
Lemma io_CopyN_full (fuel : nat) (w w' : W) (dst src : ref) (n0 : Z)
      (err : option error) :
  io_Copy fuel w dst (SrcLimited (mkLimitedReader src n0)) = Ok (w', (n0, err)) ->
  io_CopyN fuel w dst src n0 = Ok (w', (n0, None)).
Proof.
  intros H. unfold io_CopyN. rewrite H, Z.eqb_refl. reflexivity.
Qed.

(** C9. Let the write ceiling be set and let rem > 0 bytes remain.  If
    the bounded drain of [ReadFrom] copies exactly rem bytes, [ReadFrom]
    returns (rem, nil) and the write counter has advanced by rem: no
    LimitError is made, and the error value does not tell a drain that
    stopped at the ceiling from one that used up its source.  [WriteTo]
    does the same with the read ceiling. *)
Theorem C9_full_bounded_drain_returns_nil
        (fuel : nat) (l : Limit) (m : Meter) (w w' : W) (src dst : ref)
        (err : option error) :
  Limit_Meter l = Some m ->
  (let rem := Limit_RemainingCountWrite l in
   Writer m = Some dst ->
   Limit_MaxCountWrite l <> Unlimited ->
   0 < rem ->
   io_Copy fuel w dst (SrcLimited (mkLimitedReader src rem))
     = Ok (w', (rem, err)) ->
   exists l',
     Limit_ReadFrom fuel l w src = Ok (w', l', (rem, None))
     /\ Limit_CountWrite l' = Int64.wrap (Limit_CountWrite l + rem))
  /\
  (let rem := Limit_RemainingCountRead l in
   Reader m = Some src ->
   Limit_MaxCountRead l <> Unlimited ->
   0 < rem ->
   io_Copy fuel w dst (SrcLimited (mkLimitedReader src rem))
     = Ok (w', (rem, err)) ->
   exists l',
     Limit_WriteTo fuel l w dst = Ok (w', l', (rem, None))
     /\ Limit_CountRead l' = Int64.wrap (Limit_CountRead l + rem)).
Proof.
  intros Hm. split; intros rem Hb Hmax Hrem Hcopy.
  - eexists. split.
    + unfold Limit_ReadFrom. rewrite Hm, Hb.
      destruct (Z.eqb_spec (Limit_MaxCountWrite l) Unlimited) as [|_];
    [contradiction|].
      fold rem. destruct (Z.leb_spec rem 0); [lia|].
      rewrite (io_CopyN_full _ _ _ _ _ _ _ Hcopy). reflexivity.
    + now apply CountWrite_after_add.
  - eexists. split.
    + unfold Limit_WriteTo. rewrite Hm, Hb.
      destruct (Z.eqb_spec (Limit_MaxCountRead l) Unlimited) as [|_];
    [contradiction|].
      fold rem. destruct (Z.leb_spec rem 0); [lia|].
      rewrite (io_CopyN_full _ _ _ _ _ _ _ Hcopy). reflexivity.
    + now apply CountRead_after_add.
Qed.

(** From [H : Ok (w1, l1, _) = Ok (w', l', _)], replace [l'] and [w'] by
    what was returned, as it stands. *)
Ltac returned H l' w' :=
  match type of H with
  | Ok (?w1, ?l1, _) = Ok (_, _, _) =>
      assert (l' = l1) by congruence;
      assert (w' = w1) by congruence;
      subst l' w'; clear H
  end.

Lemma truncate_fits (p p' : list byte) (rem : Z) (e : error)
      (e' : option error) :
  truncate p (len p) rem e = Some (p', e') -> 0 <= rem /\ len p' <= rem.
Proof.
  unfold truncate. pose proof (len_nonneg p).
  destruct (Z.gtb_spec (len p) rem) as [Hgt|Hle].
  - unfold slice_to.
    destruct (Z.leb_spec 0 rem); [|discriminate].
    destruct (Z.leb_spec rem (len p)); [|discriminate].
    simpl. intros Heq. inversion Heq; subst.
    split; [assumption|]. unfold len in *. rewrite length_firstn. lia.
  - intros Heq. inversion Heq; subst. lia.
Qed.

(** Below a set ceiling that is an [int64], the remaining capacity the
    code computes is the plain difference as soon as it is not negative. *)
Lemma remaining_plain (mx cnt : Z) :
  Int64.ok mx -> Int64.ok cnt -> cnt <= mx ->
  0 <= Int64.wrap (mx - cnt) -> Int64.wrap (mx - cnt) = mx - cnt.
Proof.
  unfold Int64.ok, Int64.min, Int64.max. intros Hm Hc Hle Hw.
  apply Int64_wrap_nonneg; [lia|assumption].
Qed.

Lemma Limit_Read_keeps_ceiling (l : Limit) (w w' : W) (p : list byte)
      (l' : Limit) (res : list byte * Z * option error) :
  reads_within ->
  Limit_MaxCountRead l <> Unlimited ->
  Int64.ok (Limit_MaxCountRead l) -> Int64.ok (Limit_CountRead l) ->
  Limit_CountRead l <= Limit_MaxCountRead l ->
  Limit_Read l w p = Ok (w', l', res) ->
  Limit_CountRead l' <= Limit_MaxCountRead l'
  /\ Limit_MaxCountRead l' = Limit_MaxCountRead l
  /\ (trace w' = trace w
      \/ exists r k, trace w' = trace w ++ [EvRead r k]
                     /\ Z.of_nat k <= Limit_MaxCountRead l - Limit_CountRead l).
Proof.
  intros HR Hmax Hokm Hokc Hle. unfold Limit_Read.
  destruct (Limit_Meter l) as [m|] eqn:Hm;
    [|intros H; inversion H; subst; auto].
  destruct (Reader m) as [r|] eqn:Hr;
    [|intros H; inversion H; subst; auto].
  destruct (Z.eqb_spec (Limit_MaxCountRead l) Unlimited) as [|_];
    [contradiction|].
  destruct (Z.geb_spec (Limit_CountRead l) (Limit_MaxCountRead l)) as [Hge|Hlt];
    [intros H; inversion H; subst; auto|].
  destruct (truncate p (len p) (Limit_RemainingCountRead l)
              (Limit_MakeReadLimitError l w (len p)
                 (Limit_RemainingCountRead l)))
    as [[p' e]|] eqn:Ht; [|discriminate].
  apply truncate_fits in Ht. destruct Ht as [Hrem Hp'].
  unfold Limit_RemainingCountRead in Hrem, Hp'.
  rewrite remaining_plain in Hp' by assumption.
  destruct (obj_Read w r p') as [w1 [[q n] err]] eqn:Hobj.
  apply (obj_Read_within _ _ _ _ _ _ _ HR) in Hobj. destruct Hobj as [Hn Htr].
  intros H. returned H l' w'.
  rewrite CountRead_after_add by assumption.
  rewrite Int64_wrap_id
    by (unfold Int64.ok, Int64.min, Int64.max in *; lia).
  split; [simpl; unfold Limit_MaxCountRead in *; lia|].
  split; [reflexivity|].
  right. exists r, (List.length p'). split; [exact Htr|]. unfold len in Hp'. lia.
Qed.

Lemma Limit_Write_keeps_ceiling (l : Limit) (w w' : W) (p : list byte)
      (l' : Limit) (res : Z * option error) :
  writes_within ->
  Limit_MaxCountWrite l <> Unlimited ->
  Int64.ok (Limit_MaxCountWrite l) -> Int64.ok (Limit_CountWrite l) ->
  Limit_CountWrite l <= Limit_MaxCountWrite l ->
  Limit_Write l w p = Ok (w', l', res) ->
  Limit_CountWrite l' <= Limit_MaxCountWrite l'
  /\ Limit_MaxCountWrite l' = Limit_MaxCountWrite l
  /\ (trace w' = trace w
      \/ exists r q, trace w' = trace w ++ [EvWrite r q]
                     /\ len q <= Limit_MaxCountWrite l - Limit_CountWrite l).
Proof.
  intros HW Hmax Hokm Hokc Hle. unfold Limit_Write.
  destruct (Limit_Meter l) as [m|] eqn:Hm;
    [|intros H; inversion H; subst; auto].
  destruct (Writer m) as [r|] eqn:Hr;
    [|intros H; inversion H; subst; auto].
  destruct (Z.eqb_spec (Limit_MaxCountWrite l) Unlimited) as [|_];
    [contradiction|].
  destruct (Z.geb_spec (Limit_CountWrite l) (Limit_MaxCountWrite l)) as [Hge|Hlt];
    [intros H; inversion H; subst; auto|].
  destruct (truncate p (len p) (Limit_RemainingCountWrite l)
              (Limit_MakeWriteLimitError l w (len p)
                 (Limit_RemainingCountWrite l)))
    as [[p' e]|] eqn:Ht; [|discriminate].
  apply truncate_fits in Ht. destruct Ht as [Hrem Hp'].
  unfold Limit_RemainingCountWrite in Hrem, Hp'.
  rewrite remaining_plain in Hp' by assumption.
  destruct (obj_Write w r p') as [w1 [n err]] eqn:Hobj.
  apply (obj_Write_within _ _ _ _ _ _ HW) in Hobj. destruct Hobj as [Hn Htr].
  intros H. returned H l' w'.
  rewrite CountWrite_after_add by assumption.
  rewrite Int64_wrap_id
    by (unfold Int64.ok, Int64.min, Int64.max in *; lia).
  split; [simpl; unfold Limit_MaxCountWrite in *; lia|].
  split; [reflexivity|].
  right. exists r, p'. split; [exact Htr|]. lia.
Qed.

Lemma Limit_WriteTo_keeps_ceiling (fuel : nat) (l : Limit) (w w' : W)
      (dst : ref) (l' : Limit) (res : Z * option error) :
  reads_within -> readfrom_within ->
  Limit_MaxCountRead l <> Unlimited ->
  Int64.ok (Limit_MaxCountRead l) -> Int64.ok (Limit_CountRead l) ->
  Limit_CountRead l <= Limit_MaxCountRead l ->
  Limit_WriteTo fuel l w dst = Ok (w', l', res) ->
  Limit_CountRead l' <= Limit_MaxCountRead l'
  /\ Limit_MaxCountRead l' = Limit_MaxCountRead l.
Proof.
  intros HR HF Hmax Hokm Hokc Hle. unfold Limit_WriteTo.
  destruct (Limit_Meter l) as [m|] eqn:Hm;
    [|intros H; inversion H; subst; auto].
  destruct (Reader m) as [r|] eqn:Hr;
    [|intros H; inversion H; subst; auto].
  destruct (Z.eqb_spec (Limit_MaxCountRead l) Unlimited) as [|_];
    [contradiction|].
  destruct (Z.leb_spec (Limit_RemainingCountRead l) 0) as [H0|Hpos];
    [intros H; inversion H; subst; auto|].
  destruct (io_CopyN fuel w dst r (Limit_RemainingCountRead l))
    as [[w1 [n err]]| |] eqn:Hcopy; try discriminate.
  pose proof (Int64_wrap_ok (Limit_MaxCountRead l - Limit_CountRead l)) as Hokr.
  fold (Limit_RemainingCountRead l) in Hokr.
  apply (io_CopyN_bound _ _ _ _ _ _ _ _ HR HF) in Hcopy;
    [|unfold Int64.ok in Hokr; lia].
  unfold Limit_RemainingCountRead in Hcopy, Hpos.
  rewrite remaining_plain in Hcopy by (assumption || lia).
  intros H. returned H l' w'.
  rewrite CountRead_after_add by assumption.
  rewrite Int64_wrap_id
    by (unfold Int64.ok, Int64.min, Int64.max in *; lia).
  split; [simpl; unfold Limit_MaxCountRead in *; lia|reflexivity].
Qed.

Lemma Limit_ReadFrom_keeps_ceiling (fuel : nat) (l : Limit) (w w' : W)
      (src : ref) (l' : Limit) (res : Z * option error) :
  reads_within -> readfrom_within ->
  Limit_MaxCountWrite l <> Unlimited ->
  Int64.ok (Limit_MaxCountWrite l) -> Int64.ok (Limit_CountWrite l) ->
  Limit_CountWrite l <= Limit_MaxCountWrite l ->
  Limit_ReadFrom fuel l w src = Ok (w', l', res) ->
  Limit_CountWrite l' <= Limit_MaxCountWrite l'
  /\ Limit_MaxCountWrite l' = Limit_MaxCountWrite l.
Proof.
  intros HR HF Hmax Hokm Hokc Hle. unfold Limit_ReadFrom.
  destruct (Limit_Meter l) as [m|] eqn:Hm;
    [|intros H; inversion H; subst; auto].
  destruct (Writer m) as [r|] eqn:Hr;
    [|intros H; inversion H; subst; auto].
  destruct (Z.eqb_spec (Limit_MaxCountWrite l) Unlimited) as [|_];
    [contradiction|].
  destruct (Z.leb_spec (Limit_RemainingCountWrite l) 0) as [H0|Hpos];
    [intros H; inversion H; subst; auto|].
  destruct (io_CopyN fuel w r src (Limit_RemainingCountWrite l))
    as [[w1 [n err]]| |] eqn:Hcopy; try discriminate.
  pose proof (Int64_wrap_ok (Limit_MaxCountWrite l - Limit_CountWrite l)) as Hokr.
  fold (Limit_RemainingCountWrite l) in Hokr.
  apply (io_CopyN_bound _ _ _ _ _ _ _ _ HR HF) in Hcopy;
    [|unfold Int64.ok in Hokr; lia].
  unfold Limit_RemainingCountWrite in Hcopy, Hpos.
  rewrite remaining_plain in Hcopy by (assumption || lia).
  intros H. returned H l' w'.
  rewrite CountWrite_after_add by assumption.
  rewrite Int64_wrap_id
    by (unfold Int64.ok, Int64.min, Int64.max in *; lia).
  split; [simpl; unfold Limit_MaxCountWrite in *; lia|reflexivity].
Qed.

(** [Read] and [Write] return whenever counter <= ceiling and the
    difference of the two is an [int64]. *)
Lemma Limit_Read_returns (l : Limit) (w : W) (p : list byte) :
  Limit_MaxCountRead l <> Unlimited ->
  Limit_CountRead l <= Limit_MaxCountRead l ->
  Int64.ok (Limit_MaxCountRead l - Limit_CountRead l) ->
  exists w' l' res, Limit_Read l w p = Ok (w', l', res).
Proof.
  intros Hmax Hle Hok. unfold Limit_Read.
  destruct (Limit_Meter l) as [m|] eqn:Hm; [|eauto].
  destruct (Reader m) as [r|] eqn:Hr; [|eauto].
  destruct (Z.eqb_spec (Limit_MaxCountRead l) Unlimited) as [|_];
    [contradiction|].
  destruct (Z.geb_spec (Limit_CountRead l) (Limit_MaxCountRead l)); [eauto|].
  pose proof (RemainingCountRead_plain l Hok) as Hrem.
  destruct (Z.gtb_spec (len p) (Limit_RemainingCountRead l)).
  - rewrite truncate_short by lia.
    destruct (obj_Read w r (firstn (Z.to_nat (Limit_RemainingCountRead l)) p))
      as [w1 [[q k] err]]. eauto.
  - rewrite truncate_whole by lia.
    destruct (obj_Read w r p) as [w1 [[q k] err]]. eauto.
Qed.

Lemma Limit_Write_returns (l : Limit) (w : W) (p : list byte) :
  Limit_MaxCountWrite l <> Unlimited ->
  Limit_CountWrite l <= Limit_MaxCountWrite l ->
  Int64.ok (Limit_MaxCountWrite l - Limit_CountWrite l) ->
  exists w' l' res, Limit_Write l w p = Ok (w', l', res).
Proof.
  intros Hmax Hle Hok. unfold Limit_Write.
  destruct (Limit_Meter l) as [m|] eqn:Hm; [|eauto].
  destruct (Writer m) as [r|] eqn:Hr; [|eauto].
  destruct (Z.eqb_spec (Limit_MaxCountWrite l) Unlimited) as [|_];
    [contradiction|].
  destruct (Z.geb_spec (Limit_CountWrite l) (Limit_MaxCountWrite l)); [eauto|].
  pose proof (RemainingCountWrite_plain l Hok) as Hrem.
  destruct (Z.gtb_spec (len p) (Limit_RemainingCountWrite l)).
  - rewrite truncate_short by lia.
    destruct (obj_Write w r (firstn (Z.to_nat (Limit_RemainingCountWrite l)) p))
      as [w1 [k err]]. eauto.
  - rewrite truncate_whole by lia.
    destruct (obj_Write w r p) as [w1 [k err]]. eauto.
Qed.

(** Over well-behaved readers the bounded drain never panics: it returns
    or it goes on reading. *)
Lemma fill_length (p q : list byte) : List.length (fill p q) = List.length p.
Proof.
  unfold fill. rewrite length_firstn, length_app, length_skipn. lia.
Qed.

Lemma LimitedReader_Read_length (w w' : W) (l l' : LimitedReader)
      (p q : list byte) (n : Z) (err : option error) :
  reads_within ->
  LimitedReader_Read w l p = (w', l', (q, n, err)) ->
  List.length q = List.length p /\ n <= len p.
Proof.
  intros HR. unfold LimitedReader_Read. pose proof (len_nonneg p) as Hp.
  destruct (Z.leb_spec (lr_N l) 0) as [H0|H0].
  - intros H. inversion H; subst. split; [reflexivity|lia].
  - remember (if len p >? lr_N l then Z.to_nat (lr_N l) else List.length p)
      as k eqn:Hk.
    unfold obj_Read.
    pose proof (HR (types w (lr_R l)) (objs w (lr_R l)) (firstn k p)) as Hn.
    destruct (ep_Read (types w (lr_R l)) (objs w (lr_R l)) (firstn k p))
      as [o [[q0 n0] e0]].
    simpl in Hn. intros H. inversion H; subst q n. clear H.
    rewrite length_app, fill_length, length_skipn.
    unfold len in *. rewrite length_firstn in *. lia.
Qed.

Lemma copy_loop_limited_no_panic :
  reads_within ->
  forall (fuel : nat) (w : W) (dst src : ref) (N : Z) (buf : list byte)
         (written : Z),
    0 <= N <= Int64.max ->
    copy_loop fuel w dst (SrcLimited (mkLimitedReader src N)) buf written
      <> Panic.
Proof.
  intros HR. induction fuel as [|fuel IH];
    intros w dst src N buf written HN; [discriminate|].
  rewrite copy_loop_step. unfold Source_Read.
  destruct (LimitedReader_Read w (mkLimitedReader src N) buf)
    as [[w1 l1] [[buf1 nr] er]] eqn:HLR.
  pose proof (LimitedReader_Read_length _ _ _ _ _ _ _ _ HR HLR) as [Hlen Hnr'].
  apply (LimitedReader_Read_within _ _ _ _ _ _ _ _ HR) in HLR;
    [|simpl; lia].
  destruct l1 as [src1 N1]. simpl in HLR. destruct HLR as (Hnr & HN1 & Hsrc).
  subst src1 N1. cbv zeta.
  assert (Hafter : forall w0 written0,
             match er with
             | Some e => Ok (w0, (written0, if is_EOF e then None else Some e))
             | None => copy_loop fuel w0 dst
                         (SrcLimited (mkLimitedReader src (N - nr)))
                         buf1 written0
             end <> Panic).
  { intros w0 written0. destruct er; [discriminate|]. apply IH. lia. }
  destruct (Z.gtb_spec nr 0) as [Hpos|Hzero]; [|apply Hafter].
  rewrite slice_to_inside by (unfold len in *; lia).
  destruct (obj_Write w1 dst (firstn (Z.to_nat nr) buf1)) as [w2 [nw0 ew0]].
  destruct ((nw0 <? 0) || (nr <? nw0)); [discriminate|].
  destruct ew0; [discriminate|].
  destruct (negb (nr =? nw0)); [discriminate|apply Hafter].
Qed.

Lemma io_CopyN_no_panic (fuel : nat) (w : W) (dst src : ref) (n0 : Z) :
  reads_within -> ep_IsReaderFrom (types w dst) = false ->
  0 <= n0 <= Int64.max ->
  io_CopyN fuel w dst src n0 <> Panic.
Proof.
  intros HR Hrf Hn0. unfold io_CopyN. rewrite io_Copy_limited, Hrf.
  destruct (copy_loop fuel w dst (SrcLimited (mkLimitedReader src n0))
              (make (copy_size (SrcLimited (mkLimitedReader src n0)))) 0)
    as [[w1 [written e]]| |] eqn:Hloop; [|exfalso|discriminate].
  - destruct (written =? n0); [discriminate|].
    destruct ((written <? n0) && match e with None => true | Some _ => false end);
      discriminate.
  - revert Hloop. now apply copy_loop_limited_no_panic.
Qed.

Lemma Limit_WriteTo_no_panic (fuel : nat) (l : Limit) (w : W) (dst : ref) :
  reads_within -> ep_IsReaderFrom (types w dst) = false ->
  Limit_MaxCountRead l <> Unlimited ->
  Limit_WriteTo fuel l w dst <> Panic.
Proof.
  intros HR Hrf Hmax. unfold Limit_WriteTo.
  destruct (Limit_Meter l) as [m|]; [|discriminate].
  destruct (Reader m) as [r|]; [|discriminate].
  destruct (Z.eqb_spec (Limit_MaxCountRead l) Unlimited) as [|_];
    [contradiction|].
  destruct (Z.leb_spec (Limit_RemainingCountRead l) 0); [discriminate|].
  pose proof (Int64_wrap_ok (Limit_MaxCountRead l - Limit_CountRead l)) as Hok.
  fold (Limit_RemainingCountRead l) in Hok.
  pose proof (io_CopyN_no_panic fuel w dst r (Limit_RemainingCountRead l)
                HR Hrf) as Hnp.
  destruct (io_CopyN fuel w dst r (Limit_RemainingCountRead l))
    as [[w1 [k err]]| |]; [discriminate| |discriminate].
  exfalso. apply Hnp; [unfold Int64.ok in Hok; lia|reflexivity].
Qed.

Lemma Limit_ReadFrom_no_panic (fuel : nat) (l : Limit) (w : W) (src : ref) :
  reads_within ->
  (forall m dst, Limit_Meter l = Some m -> Writer m = Some dst ->
                 ep_IsReaderFrom (types w dst) = false) ->
  Limit_MaxCountWrite l <> Unlimited ->
  Limit_ReadFrom fuel l w src <> Panic.
Proof.
  intros HR Hrf Hmax. unfold Limit_ReadFrom.
  destruct (Limit_Meter l) as [m|] eqn:Hm; [|discriminate].
  destruct (Writer m) as [r|] eqn:Hwr; [|discriminate].
  specialize (Hrf m r eq_refl Hwr).
  destruct (Z.eqb_spec (Limit_MaxCountWrite l) Unlimited) as [|_];
    [contradiction|].
  destruct (Z.leb_spec (Limit_RemainingCountWrite l) 0); [discriminate|].
  pose proof (Int64_wrap_ok (Limit_MaxCountWrite l - Limit_CountWrite l)) as Hok.
  fold (Limit_RemainingCountWrite l) in Hok.
  pose proof (io_CopyN_no_panic fuel w r src (Limit_RemainingCountWrite l)
                HR Hrf) as Hnp.
  destruct (io_CopyN fuel w r src (Limit_RemainingCountWrite l))
    as [[w1 [k err]]| |]; [discriminate| |discriminate].
  exfalso. apply Hnp; [unfold Int64.ok in Hok; lia|reflexivity].
Qed.

(** C5, amended.  Let the ceiling of a direction be set, let ceiling and
    counter be [int64] values with counter <= ceiling, and let every
    endpoint that takes part keep to its contract: a [Read] or [Write]
    transfers between 0 and [len(p)] bytes, and a [ReadFrom] method to
    which [io.Copy] hands the copy reports no more than the
    [LimitedReader] it is fed has left.  For [ReadFrom] this includes the
    caller's source, for [WriteTo] the caller's sink.  Then every [Read]
    and [WriteTo] (resp. [Write] and [ReadFrom]) that returns leaves
    counter <= ceiling, with the ceiling untouched; and [Read] and
    [Write] call the endpoint at most once, on a slice no longer than
    the remaining capacity.  [Read] and [Write] do return when
    ceiling - counter is an [int64]; a drain that runs the loop of
    [io.Copy] never panics: it returns, or the loop goes on without
    end. *)
Theorem C5_ceiling_is_not_passed (l : Limit) (w : W) :
  reads_within -> writes_within -> readfrom_within ->
  (Limit_MaxCountRead l <> Unlimited ->
   Int64.ok (Limit_MaxCountRead l) -> Int64.ok (Limit_CountRead l) ->
   Limit_CountRead l <= Limit_MaxCountRead l ->
   (forall p w' l' res,
       Limit_Read l w p = Ok (w', l', res) ->
       Limit_CountRead l' <= Limit_MaxCountRead l'
       /\ Limit_MaxCountRead l' = Limit_MaxCountRead l
       /\ (trace w' = trace w
           \/ exists r k,
               trace w' = trace w ++ [EvRead r k]
               /\ Z.of_nat k <= Limit_MaxCountRead l - Limit_CountRead l))
   /\ (forall fuel dst w' l' res,
       Limit_WriteTo fuel l w dst = Ok (w', l', res) ->
       Limit_CountRead l' <= Limit_MaxCountRead l'
       /\ Limit_MaxCountRead l' = Limit_MaxCountRead l)
   /\ (forall p,
       Int64.ok (Limit_MaxCountRead l - Limit_CountRead l) ->
       exists w' l' res, Limit_Read l w p = Ok (w', l', res))
   /\ (forall fuel dst,
       ep_IsReaderFrom (types w dst) = false ->
       Limit_WriteTo fuel l w dst <> Panic))
  /\
  (Limit_MaxCountWrite l <> Unlimited ->
   Int64.ok (Limit_MaxCountWrite l) -> Int64.ok (Limit_CountWrite l) ->
   Limit_CountWrite l <= Limit_MaxCountWrite l ->
   (forall p w' l' res,
       Limit_Write l w p = Ok (w', l', res) ->
       Limit_CountWrite l' <= Limit_MaxCountWrite l'
       /\ Limit_MaxCountWrite l' = Limit_MaxCountWrite l
       /\ (trace w' = trace w
           \/ exists r q,
               trace w' = trace w ++ [EvWrite r q]
               /\ len q <= Limit_MaxCountWrite l - Limit_CountWrite l))
   /\ (forall fuel src w' l' res,
       Limit_ReadFrom fuel l w src = Ok (w', l', res) ->
       Limit_CountWrite l' <= Limit_MaxCountWrite l'
       /\ Limit_MaxCountWrite l' = Limit_MaxCountWrite l)
   /\ (forall p,
       Int64.ok (Limit_MaxCountWrite l - Limit_CountWrite l) ->
       exists w' l' res, Limit_Write l w p = Ok (w', l', res))
   /\ (forall fuel src,
       (forall m dst, Limit_Meter l = Some m -> Writer m = Some dst ->
                      ep_IsReaderFrom (types w dst) = false) ->
       Limit_ReadFrom fuel l w src <> Panic)).
Proof.
  intros HR HW HF.
  split; intros Hmax Hokm Hokc Hle; (split; [|split; [|split]]); intros.
  - eapply Limit_Read_keeps_ceiling; eauto.
  - eapply Limit_WriteTo_keeps_ceiling; eauto.
  - now apply Limit_Read_returns.
  - now apply Limit_WriteTo_no_panic.
  - eapply Limit_Write_keeps_ceiling; eauto.
  - eapply Limit_ReadFrom_keeps_ceiling; eauto.
  - now apply Limit_Write_returns.
  - now apply Limit_ReadFrom_no_panic.
Qed.

End Draining.

(* ------------------------------------------------------------------ *)
(** ** The concrete endpoints keep to the contract *)

Lemma Mock_reads_within : @reads_within Mock.Ty Mock.Obj Mock.endpoint.
Proof.
  intros t o p. pose proof (len_nonneg p) as Hp. unfold len in *.
  destruct t; simpl; unfold Mock.take;
    repeat match goal with
           | |- context [match ?x with _ => _ end] => destruct x
           end; simpl; lia.
Qed.

Lemma Mock_writes_within : @writes_within Mock.Ty Mock.Obj Mock.endpoint.
Proof.
  intros t o p. pose proof (len_nonneg p) as Hp.
  destruct t; simpl;
    repeat match goal with
           | |- context [match ?x with _ => _ end] => destruct x
           end; simpl; lia.
Qed.

(** [bytes.Buffer.ReadFrom] over a [LimitedReader] with [N] bytes left
    adds at most [N] to its count. *)
Lemma Buffer_ReadFrom_bound (fuel : nat) :
  forall (w : World Mock.Ty Mock.Obj) (self src : ref) (N n : Z)
         (w' : World Mock.Ty Mock.Obj) (k : Z) (err : option error),
    0 <= N -> 0 <= n -> n + N <= Int64.max ->
    Mock.Buffer_ReadFrom fuel w self (SrcLimited (mkLimitedReader src N)) n
      = Ok (w', (k, err)) ->
    n <= k <= n + N.
Proof.
  induction fuel as [|fuel IH];
    intros w self src N n w' k err HN Hn Hsum; [discriminate|].
  cbn [Mock.Buffer_ReadFrom]. unfold Source_Read.
  destruct (LimitedReader_Read w (mkLimitedReader src N) (make Mock.MinRead))
    as [[w1 l1] [[q m] e]] eqn:HLR.
  apply (LimitedReader_Read_within _ _ _ _ _ _ _ _ Mock_reads_within) in HLR;
    [|simpl; lia].
  destruct l1 as [src1 N1]. simpl in HLR. destruct HLR as (Hm & HN1 & Hsrc).
  subst src1 N1.
  destruct (Z.ltb_spec m 0) as [|_]; [lia|].
  destruct (slice_to q m) as [got|]; [|discriminate].
  cbv zeta.
  rewrite (Int64_wrap_id (n + m))
    by (unfold Int64.ok, Int64.min, Int64.max in *; lia).
  destruct e as [e|].
  - intros H. inversion H; subst. lia.
  - intros H. apply IH in H; lia.
Qed.

Lemma Mock_readfrom_within : @readfrom_within Mock.Ty Mock.Obj Mock.copier.
Proof.
  intros fuel w dst l w' n err Hrf HN. destruct l as [src N]. simpl in HN.
  simpl. unfold Mock.ReadFrom.
  simpl in Hrf. destruct (types w dst); try discriminate.
  intros H. apply Buffer_ReadFrom_bound in H; lia.
Qed.

(* ------------------------------------------------------------------ *)
(** ** The statements at concrete inputs *)

Section Runs.

Import Scenario.

(** C2 as first stated fails on a reader that holds fewer bytes than
    remain: with ceiling 5, a 13-byte buffer and a 2-byte reader, 5 bytes
    remain and 0 < 5 < 13, yet [Read] returns 2 bytes and the counter
    stands at 2, not 5. *)
Lemma C2_counterexample :
  Limit_CanRead lR5 = true
  /\ Limit_MaxCountRead lR5 <> Unlimited
  /\ 0 < Limit_RemainingCountRead lR5 < len buf13
  /\ match Limit_Read lR5 wHi buf13 with
     | Ok (_, l', (_, n, _)) =>
         n = 2 /\ n <> Limit_RemainingCountRead lR5
         /\ Limit_CountRead l'
              <> Limit_CountRead lR5 + Limit_RemainingCountRead lR5
     | _ => False
     end.
Proof.
  split; [reflexivity|]. split; [discriminate|].
  split; [vm_compute; split; reflexivity|].
  vm_compute. repeat split; discriminate.
Qed.

Lemma C2_witness :
  0 < Limit_MaxCountRead lR5 - Limit_CountRead lR5 < len buf13
  /\ exists l',
       Limit_Read lR5 wA buf13
         = Ok (fst (obj_Read wA 0%nat (firstn 5 buf13)), l',
               (Mock.bytes_of "Hello" ++ skipn 5 buf13, 5,
                Some (MakeError 0
                        (LimitErr (mkLimitError 7%nat IO.Read 13 5)))))
       /\ Limit_CountRead l' = 5.
Proof.
  split; [vm_compute; split; reflexivity|].
  assert (Hlen : len buf13 <= Int64.max) by (vm_compute; discriminate).
  assert (Hok : Int64.ok (Limit_MaxCountRead lR5))
    by (vm_compute; split; discriminate).
  assert (Hrem : 0 < Limit_MaxCountRead lR5 - Limit_CountRead lR5 < len buf13)
    by (vm_compute; split; reflexivity).
  assert (Hobj : obj_Read wA 0%nat (firstn 5 buf13)
                 = (fst (obj_Read wA 0%nat (firstn 5 buf13)),
                    (Mock.bytes_of "Hello", 5, None)))
    by reflexivity.
  destruct (proj1 (C2_truncated_to_remaining
                     lR5 (NewReadMeter (Some 0%nat)) 0%nat wA
                     (fst (obj_Read wA 0%nat (firstn 5 buf13))) buf13
                     (Mock.bytes_of "Hello") 5 None eq_refl Hlen)
              eq_refl ltac:(discriminate) Hok Hrem Hobj)
    as (l' & Hcall & _ & _ & _ & Hfull).
  exists l'. split; [exact Hcall|]. rewrite (Hfull eq_refl). reflexivity.
Defined.

Lemma C3_witness :
  Limit_CanRead lR5_full = true
  /\ Limit_CountRead lR5_full >= Limit_MaxCountRead lR5_full
  /\ Limit_Read lR5_full wA buf13
       = Ok (wA, lR5_full,
             (buf13, 0,
              Some (MakeError 0 (LimitErr (mkLimitError 7%nat IO.Read 13 0))))).
Proof.
  split; [reflexivity|]. split; [vm_compute; discriminate|].
  apply (proj1 (C3_reached_ceiling_rejects lR5_full wA buf13));
    [reflexivity | discriminate | vm_compute; discriminate].
Defined.

Lemma C4_witness :
  Limit_Read (Limit_SetMaxCountRead lR5_full Unlimited) wA buf13
    = via_Meter (Limit_SetMaxCountRead lR5_full Unlimited)
        (Ok (Meter_Read (Meter_SetCountRead (NewReadMeter (Some 0%nat)) 5)
               wA buf13)).
Proof.
  apply (proj1 (proj1 (C4_unlimited_is_the_Meter
                         (Limit_SetMaxCountRead lR5_full Unlimited)
                         (Meter_SetCountRead (NewReadMeter (Some 0%nat)) 5)
                         wA eq_refl) eq_refl)).
Defined.

(** C5 as first stated fails for [ReadFrom]: the wrapped writer keeps to
    its contract, yet with a source that reports 8 bytes read into a
    slice of 2, a drain under ceiling 10 that starts at counter 0 returns
    16 bytes without an error and leaves the counter at 16. *)
Lemma C5_counterexample :
  (forall o p, 0 <= fst (snd (ep_Write Hostile.Sink o p)) <= len p)
  /\ Limit_MaxCountWrite Hostile.lW10 <> Unlimited
  /\ Limit_CountWrite Hostile.lW10 <= Limit_MaxCountWrite Hostile.lW10
  /\ match Limit_ReadFrom 10 Hostile.lW10 Hostile.world 0%nat with
     | Ok (w', l', (n, err)) =>
         n = 16 /\ err = None
         /\ Limit_MaxCountWrite l' = 10
         /\ Limit_CountWrite l' = 16
         /\ trace w' = [EvRead 0%nat 10; EvWrite 1%nat (make 8);
                        EvRead 0%nat 2; EvWrite 1%nat (make 8)]
     | _ => False
     end.
Proof.
  split; [intros o p; simpl; pose proof (len_nonneg p); lia|].
  split; [discriminate|]. split; [vm_compute; discriminate|].
  vm_compute. repeat split.
Qed.

(** The drain of the 13-byte reader into the buffer under ceiling 5: the
    buffer's own [ReadFrom] does the copy, and the counter ends at the
    ceiling. *)
Lemma C5_witness :
  Limit_CountWrite lW5 <= Limit_MaxCountWrite lW5
  /\ ep_IsReaderFrom (types wA 1%nat) = true
  /\ exists w' l' res,
       Limit_ReadFrom 10 lW5 wA 0%nat = Ok (w', l', res)
       /\ Limit_CountWrite l' <= Limit_MaxCountWrite l'
       /\ Limit_MaxCountWrite l' = 5.
Proof.
  split; [vm_compute; discriminate|]. split; [reflexivity|].
  assert (Hrun : match Limit_ReadFrom 10 lW5 wA 0%nat with
                 | Ok _ => True
                 | _ => False
                 end) by (vm_compute; exact I).
  destruct (Limit_ReadFrom 10 lW5 wA 0%nat) as [[[w' l'] res]| |] eqn:Hcall;
    try contradiction.
  exists w', l', res. split; [reflexivity|].
  exact (proj1 (proj2 (proj2 (C5_ceiling_is_not_passed
                         lW5 wA Mock_reads_within Mock_writes_within
                         Mock_readfrom_within)
                  ltac:(discriminate)
                  ltac:(vm_compute; split; discriminate)
                  ltac:(vm_compute; split; discriminate)
                  ltac:(vm_compute; discriminate)))
            10%nat 0%nat w' l' res Hcall).
Defined.

Lemma C6_witness :
  0 <= Limit_RemainingCountRead lR5 < len buf13
  /\ exists l' buf,
       Limit_Read lR5 wFail buf13
         = Ok (fst (obj_Read wFail 0%nat (firstn 5 buf13)), l',
               (buf, 0, Some boom)).
Proof.
  split; [vm_compute; split; [discriminate|reflexivity]|].
  apply (proj1 (C6_endpoint_error_hides_LimitError
                  lR5 (NewReadMeter (Some 0%nat)) 0%nat wFail
                  (fst (obj_Read wFail 0%nat (firstn 5 buf13)))
                  buf13 (firstn 5 buf13) 0 (Some boom) eq_refl));
    [reflexivity | discriminate | reflexivity
     | vm_compute; split; [discriminate|reflexivity] | reflexivity].
Defined.

(** A 13-byte buffer offered to a reader that holds 2 bytes: the counter
    moves by 2. *)
Lemma C7_witness :
  exists m',
    Meter_Read (NewReadMeter (Some 0%nat)) wHi buf13
      = (fst (obj_Read wHi 0%nat buf13), m',
         (Mock.bytes_of "Hi" ++ skipn 2 buf13, 2, None))
    /\ Meter_CountRead m' = 2.
Proof.
  assert (Hobj : obj_Read wHi 0%nat buf13
                 = (fst (obj_Read wHi 0%nat buf13),
                    (Mock.bytes_of "Hi" ++ skipn 2 buf13, 2, None)))
    by (vm_compute; reflexivity).
  destruct (proj1 (C7_counter_moves_by_transferred
                     (NewReadMeter (Some 0%nat)) wHi buf13)
              0%nat _ _ _ _ eq_refl Hobj) as (m' & Hcall & Hcount & _).
  exists m'. split; [exact Hcall|]. rewrite Hcount. reflexivity.
Defined.

Lemma C8_witness :
  Meter_Close (NewMeter (Some 0%nat) (Some 1%nat)) wA = (wA, None).
Proof.
  apply (proj1 (C8_Close_joins_the_closes
                  (NewMeter (Some 0%nat) (Some 1%nat)) wA)).
  intros r [H|[H|[]]]; inversion H; reflexivity.
Defined.

Lemma C9_witness :
  0 < Limit_RemainingCountWrite lW5
  /\ exists w' l',
       Limit_ReadFrom 10 lW5 wA 0%nat = Ok (w', l', (5, None))
       /\ Limit_CountWrite l' = 5.
Proof.
  split; [reflexivity|].
  assert (Hcopy : exists w' err,
             io_Copy 10 wA 1%nat
               (SrcLimited (mkLimitedReader 0%nat
                              (Limit_RemainingCountWrite lW5)))
             = Ok (w', (Limit_RemainingCountWrite lW5, err))).
  { eexists. eexists. reflexivity. }
  destruct Hcopy as (w' & err & Hcopy).
  destruct (proj1 (C9_full_bounded_drain_returns_nil
                     10 lW5 (NewWriteMeter (Some 1%nat)) wA w' 0%nat 1%nat err
                     eq_refl)
              eq_refl ltac:(discriminate) ltac:(reflexivity) Hcopy)
    as (l' & Hcall & Hcount).
  exists w', l'. split; [exact Hcall|]. rewrite Hcount. reflexivity.
Defined.

Lemma C10_witness :
  Meter_Close (NewReadWriteMeter (Some 0%nat)) wC
    = (fst (obj_Close (fst (obj_Close wC 0%nat)) 0%nat),
       Some (JoinError [Mock.os_ErrClosed]))
  /\ trace (fst (obj_Close (fst (obj_Close wC 0%nat)) 0%nat))
       = [EvClose 0%nat; EvClose 0%nat].
Proof.
  assert (Hc : ep_IsCloser (types wC 0%nat) = true) by reflexivity.
  assert (H1 : obj_Close wC 0%nat = (fst (obj_Close wC 0%nat), None))
    by reflexivity.
  assert (H2 : obj_Close (fst (obj_Close wC 0%nat)) 0%nat
               = (fst (obj_Close (fst (obj_Close wC 0%nat)) 0%nat),
                  Some Mock.os_ErrClosed))
    by reflexivity.
  destruct (C10_ReadWriteMeter_closes_twice _ _ _ _ _ _ Hc H1 H2)
    as (Hcall & Htrace & _).
  split; [exact Hcall | exact Htrace].
Defined.

(** The runs of the package's tests. *)

(** TestLimit_ReadLimited: ceiling 5 over the 13 bytes of the source.
    The first read returns 5 bytes, the second none; both errors match
    the expected LimitError under [errors.Is]. *)
Example TestLimit_ReadLimited :
  match Limit_Read lR5 wA buf13 with
  | Ok (w1, l1, (b1, n1, err1)) =>
      match Limit_Read l1 w1 b1 with
      | Ok (w2, l2, (b2, n2, err2)) =>
          n1 = 5 /\ n2 = 0
          /\ errors_Is err1
               (Some (Limit_MakeReadLimitError l2 w2 13 5)) = true
          /\ errors_Is err2
               (Some (Limit_MakeReadLimitError l2 w2 13 0)) = true
          /\ Limit_CountRead l2 = 5
          /\ b2 = Mock.bytes_of "Hello" ++ skipn 5 buf13
          /\ trace w2 = [EvRead 0%nat 5]
      | _ => False
      end
  | _ => False
  end.
Proof. vm_compute. repeat split. Qed.

(** TestLimit_WriteLimited: ceiling 13, the 13-byte payload written
    twice. *)
Example TestLimit_WriteLimited :
  match Limit_Write (NewWriteLimit 7%nat (Some 1%nat) 13) wA Mock.hello with
  | Ok (w1, l1, (n1, err1)) =>
      match Limit_Write l1 w1 Mock.hello with
      | Ok (w2, l2, (n2, err2)) =>
          n1 = 13 /\ err1 = None /\ n2 = 0
          /\ errors_Is err2
               (Some (Limit_MakeWriteLimitError l2 w2 13 0)) = true
          /\ Limit_CountWrite l2 = 13
          /\ Mock.data (objs w2 1%nat) = Mock.hello
      | _ => False
      end
  | _ => False
  end.
Proof. vm_compute. repeat split. Qed.

(** TestLimit_ReadFromLimited: with the counter exactly at the ceiling
    the second drain fails with requested = 0. *)
Example TestLimit_ReadFromLimited :
  match Limit_ReadFrom 10 (NewWriteLimit 7%nat (Some 1%nat) 13) wA 0%nat with
  | Ok (w1, l1, (n1, err1)) =>
      match Limit_ReadFrom 10 l1 w1 0%nat with
      | Ok (w2, l2, (n2, err2)) =>
          n1 = 13 /\ err1 = None /\ n2 = 0
          /\ errors_Is err2
               (Some (Limit_MakeWriteLimitError l2 w2 0 0)) = true
          /\ Limit_CountWrite l2 = 13
          /\ trace w2 = trace w1
      | _ => False
      end
  | _ => False
  end.
Proof. vm_compute. repeat split. Qed.

(** TestLimit_WriteToShort: the source ends before the ceiling. *)
Example TestLimit_WriteToShort :
  match Limit_WriteTo 10 (NewReadLimit 7%nat (Some 0%nat) 13) wHello5 1%nat with
  | Ok (w1, l1, (n1, err1)) =>
      n1 = 5 /\ errors_Is err1 (Some io_EOF) = true
      /\ Limit_CountRead l1 = 5
      /\ Mock.data (objs w1 1%nat) = Mock.bytes_of "Hello"
  | _ => False
  end.
Proof. vm_compute. repeat split. Qed.

(** TestMeter_Close: no binding, no error; a closer that fails, an error
    that matches its error. *)
Example TestMeter_Close :
  snd (Meter_Close (mkMeter None None 0 0) wC) = None
  /\ errors_Is (snd (Meter_Close (NewReadWriteMeter (Some 1%nat)) wC))
       (Some cerr) = true.
Proof. vm_compute. split; reflexivity. Qed.

(** A drain that stopped at the ceiling and a drain that used up its
    source return the same count and the same nil error. *)
Example drain_at_ceiling_looks_like_drain_of_all :
  match Limit_ReadFrom 10 lW5 wA 0%nat, Limit_ReadFrom 10 lW5 wHello5 0%nat with
  | Ok (_, _, r1), Ok (_, _, r2) => r1 = (5, None) /\ r2 = (5, None)
  | _, _ => False
  end.
Proof. vm_compute. split; reflexivity. Qed.

(** With a [bytes.Buffer] as the writer, [io.Copy] hands the bounded
    drain to the buffer's own [ReadFrom]: the reader is asked once, for
    5 bytes, and [Write] of the buffer is not called. *)
Example drain_is_handed_to_the_buffer :
  match Limit_ReadFrom 10 lW5 wA 0%nat with
  | Ok (w1, l1, (n1, err1)) =>
      n1 = 5 /\ err1 = None /\ trace w1 = [EvRead 0%nat 5]
      /\ Mock.data (objs w1 1%nat) = Mock.bytes_of "Hello"
      /\ Limit_CountWrite l1 = 5
  | _ => False
  end.
Proof. vm_compute. repeat split. Qed.

(** TestMeter_ReadFrom: the source is a [bytes.Reader], whose [WriteTo]
    does the copy with one [Write] of all 13 bytes. *)
Example TestMeter_ReadFrom :
  match Meter_ReadFrom 10 (NewWriteMeter (Some 1%nat)) wA 0%nat with
  | Ok (w1, m1, (n1, err1)) =>
      n1 = 13 /\ err1 = None /\ trace w1 = [EvWrite 1%nat Mock.hello]
      /\ Mock.data (objs w1 1%nat) = Mock.hello
      /\ Meter_CountWrite m1 = 13
  | _ => False
  end.
Proof. vm_compute. repeat split. Qed.

End Runs.

(* ------------------------------------------------------------------ *)
(** ** Further properties: errors *)

Lemma LimitError_eqb_eq (a b : LimitError) :
  LimitError_eqb a b = true <-> a = b.
Proof.
  unfold LimitError_eqb. destruct a as [a1 a2 a3 a4], b as [b1 b2 b3 b4].
  simpl. rewrite !andb_true_iff, Nat.eqb_eq, !Z.eqb_eq. split.
  - intros [[[-> ->] ->] ->]. reflexivity.
  - intros H. inversion H. auto.
Qed.

Lemma errors_is_MakeError_LimitErr (t1 t2 : Z) (a b : LimitError) :
  errors_is (MakeError t1 (LimitErr a)) (MakeError t2 (LimitErr b))
    = LimitError_eqb a b.
Proof.
  unfold MakeError. simpl. rewrite !orb_false_r. reflexivity.
Qed.

Section ErrorMatching.

Context {Ty Obj : Type}.

Local Abbreviation W := (World Ty Obj).

(** X1. Under [errors.Is], the error made by [MakeReadLimitError] matches
    another such error exactly when both come from the same Limit and
    carry the same requested and accepted counts; when they were made
    plays no part.  The same holds for [MakeWriteLimitError], and a read
    error never matches a write error. *)
Theorem X1_LimitErrors_match_by_their_fields
        (l l' : Limit) (w w' : W) (req n req' n' : Z) :
  (errors_is (Limit_MakeReadLimitError l w req n)
             (Limit_MakeReadLimitError l' w' req' n') = true
   <-> self l = self l' /\ req = req' /\ n = n')
  /\ (errors_is (Limit_MakeWriteLimitError l w req n)
                (Limit_MakeWriteLimitError l' w' req' n') = true
      <-> self l = self l' /\ req = req' /\ n = n')
  /\ errors_is (Limit_MakeReadLimitError l w req n)
               (Limit_MakeWriteLimitError l' w' req' n') = false
  /\ errors_is (Limit_MakeWriteLimitError l w req n)
               (Limit_MakeReadLimitError l' w' req' n') = false.
Proof.
  unfold Limit_MakeReadLimitError, Limit_MakeWriteLimitError.
  rewrite !errors_is_MakeError_LimitErr.
  split; [|split; [|split]].
  - rewrite LimitError_eqb_eq. split.
    + intros H. inversion H. auto.
    + intros (-> & -> & ->). reflexivity.
  - rewrite LimitError_eqb_eq. split.
    + intros H. inversion H. auto.
    + intros (-> & -> & ->). reflexivity.
  - unfold LimitError_eqb. simpl.
    rewrite andb_false_r. reflexivity.
  - unfold LimitError_eqb. simpl.
    rewrite andb_false_r. reflexivity.
Qed.

End ErrorMatching.

(* ------------------------------------------------------------------ *)
(** ** Further properties: Read and Write below the ceiling *)

Section BelowCeiling.

Context {Ty Obj : Type} {E : Endpoint Ty Obj} {C : Copier Ty Obj}.

Local Abbreviation W := (World Ty Obj).

(** X2. Below a set ceiling, a request that fits into the remaining
    capacity -- also one that uses it up to the last byte -- goes through
    [Limit.Read] (resp. [Limit.Write]) as it goes through the Meter: the
    endpoint gets the whole buffer, count and error are the endpoint's,
    and no LimitError is made. *)
Theorem X2_fitting_request_is_the_Meter
        (l : Limit) (m : Meter) (w : W) (p : list byte) :
  Limit_Meter l = Some m ->
  (Limit_MaxCountRead l <> Unlimited ->
   Limit_CountRead l < Limit_MaxCountRead l ->
   len p <= Limit_RemainingCountRead l ->
   Limit_Read l w p = via_Meter l (Ok (Meter_Read m w p)))
  /\
  (Limit_MaxCountWrite l <> Unlimited ->
   Limit_CountWrite l < Limit_MaxCountWrite l ->
   len p <= Limit_RemainingCountWrite l ->
   Limit_Write l w p = via_Meter l (Ok (Meter_Write m w p))).
Proof.
  intros Hm. split; intros Hmax Hlt Hfit.
  - unfold Meter_Read, via_Meter.
    destruct (Reader m) as [r|] eqn:Hr.
    + destruct (obj_Read w r p) as [w1 [[q n] err]] eqn:Hobj.
      apply (Limit_Read_whole l m r w p w1 q n err); assumption.
    + unfold Limit_Read. rewrite Hm, Hr, with_Meter_same by assumption.
      reflexivity.
  - unfold Meter_Write, via_Meter.
    destruct (Writer m) as [r|] eqn:Hr.
    + destruct (obj_Write w r p) as [w1 [n err]] eqn:Hobj.
      apply (Limit_Write_whole l m r w p w1 n err); assumption.
    + unfold Limit_Write. rewrite Hm, Hr, with_Meter_same by assumption.
      reflexivity.
Qed.

(** X3. When ceiling - counter does not fit an [int64] (a large ceiling
    over a negative counter), the remaining capacity wraps around to a
    negative number.  [Read] and [Write] then panic on [p[:rem]] for
    every buffer, while [WriteTo] and [ReadFrom] take the wrapped value
    for an exhausted capacity: 0 bytes, a LimitError, nothing touched. *)
Theorem X3_remaining_capacity_wraps_around (l : Limit) (w : W) :
  (Limit_CanRead l = true ->
   Int64.ok (Limit_MaxCountRead l) -> Int64.ok (Limit_CountRead l) ->
   Limit_MaxCountRead l - Limit_CountRead l > Int64.max ->
   Limit_RemainingCountRead l
     = Limit_MaxCountRead l - Limit_CountRead l - 2 ^ 64
   /\ (forall p, Limit_Read l w p = Panic)
   /\ (forall fuel dst,
         Limit_WriteTo fuel l w dst =
           Ok (w, l, (0, Some (Limit_MakeReadLimitError l w
                                 (Limit_RemainingCountRead l) 0)))))
  /\
  (Limit_CanWrite l = true ->
   Int64.ok (Limit_MaxCountWrite l) -> Int64.ok (Limit_CountWrite l) ->
   Limit_MaxCountWrite l - Limit_CountWrite l > Int64.max ->
   Limit_RemainingCountWrite l
     = Limit_MaxCountWrite l - Limit_CountWrite l - 2 ^ 64
   /\ (forall p, Limit_Write l w p = Panic)
   /\ (forall fuel src,
         Limit_ReadFrom fuel l w src =
           Ok (w, l, (0, Some (Limit_MakeWriteLimitError l w
                                 (Limit_RemainingCountWrite l) 0))))).
Proof.
  assert (Hwrap : forall z, Int64.max < z < 2 ^ 64 ->
                            Int64.wrap z = z - 2 ^ 64).
  { intros z Hz. unfold Int64.wrap, Int64.max in *.
    pose proof (Z.mod_pos_bound (z + 2 ^ 63) (2 ^ 64)) as Hb.
    pose proof (Z.div_mod (z + 2 ^ 63) (2 ^ 64)) as Hd.
    assert (Hq : (z + 2 ^ 63) / 2 ^ 64 = 1) by lia.
    rewrite Hq in Hd. lia. }
  split; intros Hcan Hokm Hokc Hbig.
  - assert (Hrem : Limit_RemainingCountRead l
                   = Limit_MaxCountRead l - Limit_CountRead l - 2 ^ 64).
    { unfold Limit_RemainingCountRead. apply Hwrap.
      unfold Int64.ok, Int64.min, Int64.max in *. lia. }
    assert (Hneg : Limit_RemainingCountRead l < 0).
    { rewrite Hrem. unfold Int64.ok, Int64.min, Int64.max in *. lia. }
    assert (Hunl : Limit_MaxCountRead l <> Unlimited).
    { unfold Unlimited, Int64.ok, Int64.min, Int64.max in *. lia. }
    split; [exact Hrem|]. split.
    + intros p. unfold Limit_CanRead, Meter_CanRead in Hcan.
      destruct (Limit_Meter l) as [m|] eqn:Hm; [|discriminate].
      destruct (Reader m) as [r|] eqn:Hr; [|discriminate].
      apply (Limit_Read_panics l m r w p Hm Hr Hunl);
        [unfold Int64.max in Hbig; lia | exact Hneg].
    + intros fuel dst. apply Limit_WriteTo_no_capacity; [assumption..|lia].
  - assert (Hrem : Limit_RemainingCountWrite l
                   = Limit_MaxCountWrite l - Limit_CountWrite l - 2 ^ 64).
    { unfold Limit_RemainingCountWrite. apply Hwrap.
      unfold Int64.ok, Int64.min, Int64.max in *. lia. }
    assert (Hneg : Limit_RemainingCountWrite l < 0).
    { rewrite Hrem. unfold Int64.ok, Int64.min, Int64.max in *. lia. }
    assert (Hunl : Limit_MaxCountWrite l <> Unlimited).
    { unfold Unlimited, Int64.ok, Int64.min, Int64.max in *. lia. }
    split; [exact Hrem|]. split.
    + intros p. unfold Limit_CanWrite, Meter_CanWrite in Hcan.
      destruct (Limit_Meter l) as [m|] eqn:Hm; [|discriminate].
      destruct (Writer m) as [r|] eqn:Hr; [|discriminate].
      apply (Limit_Write_panics l m r w p Hm Hr Hunl);
        [unfold Int64.max in Hbig; lia | exact Hneg].
    + intros fuel src. apply Limit_ReadFrom_no_capacity; [assumption..|lia].
Qed.

(** X4. A direction without a bound endpoint is a closed pipe: the
    Meter's and the Limit's transfer operations of that direction return
    0 bytes and [io.ErrClosedPipe], whatever ceiling and counter are (an
    unlimited or an exhausted Limit included), and leave world, Meter and
    Limit as they were -- [ReadFrom] does not read its source, [WriteTo]
    does not write to its sink. *)
Theorem X4_unbound_direction_is_a_closed_pipe
        (w : W) (p : list byte) (fuel : nat) (other : ref) :
  (forall m, Meter_CanRead m = false ->
     Meter_Read m w p = (w, m, (p, 0, Some io_ErrClosedPipe))
     /\ Meter_WriteTo fuel m w other = Ok (w, m, (0, Some io_ErrClosedPipe)))
  /\ (forall m, Meter_CanWrite m = false ->
     Meter_Write m w p = (w, m, (0, Some io_ErrClosedPipe))
     /\ Meter_ReadFrom fuel m w other = Ok (w, m, (0, Some io_ErrClosedPipe)))
  /\ (forall l, Limit_CanRead l = false ->
     Limit_Read l w p = Ok (w, l, (p, 0, Some io_ErrClosedPipe))
     /\ Limit_WriteTo fuel l w other = Ok (w, l, (0, Some io_ErrClosedPipe)))
  /\ (forall l, Limit_CanWrite l = false ->
     Limit_Write l w p = Ok (w, l, (0, Some io_ErrClosedPipe))
     /\ Limit_ReadFrom fuel l w other = Ok (w, l, (0, Some io_ErrClosedPipe))).
Proof.
  split; [|split; [|split]].
  - intros m Hcan. unfold Meter_CanRead in Hcan.
    unfold Meter_Read, Meter_WriteTo.
    destruct (Reader m); [discriminate|]. split; reflexivity.
  - intros m Hcan. unfold Meter_CanWrite in Hcan.
    unfold Meter_Write, Meter_ReadFrom.
    destruct (Writer m); [discriminate|]. split; reflexivity.
  - intros l Hcan. unfold Limit_CanRead, Meter_CanRead in Hcan.
    unfold Limit_Read, Limit_WriteTo.
    destruct (Limit_Meter l) as [m|]; [|split; reflexivity].
    destruct (Reader m); [discriminate|]. split; reflexivity.
  - intros l Hcan. unfold Limit_CanWrite, Meter_CanWrite in Hcan.
    unfold Limit_Write, Limit_ReadFrom.
    destruct (Limit_Meter l) as [m|]; [|split; reflexivity].
    destruct (Writer m); [discriminate|]. split; reflexivity.
Qed.

End BelowCeiling.

(* ------------------------------------------------------------------ *)
(** ** Further properties: counters *)

Lemma Int64_wrap_add (x y : Z) :
  Int64.wrap (Int64.wrap x + y) = Int64.wrap (x + y).
Proof.
  unfold Int64.wrap.
  replace ((x + 2 ^ 63) mod 2 ^ 64 - 2 ^ 63 + y + 2 ^ 63)
    with ((x + 2 ^ 63) mod 2 ^ 64 + y) by ring.
  rewrite Zplus_mod_idemp_l.
  replace (x + 2 ^ 63 + y) with (x + y + 2 ^ 63) by ring. reflexivity.
Qed.

(** X8. Adding to a counter composes: adding [a] and then [b] leaves the
    Meter as adding [a + b] at once does, wrap-around included.  So a
    count can be taken back: on a counter that is an [int64], adding [n]
    and then [-n] restores the Meter. *)
Theorem X8_AddCount_composes (m : Meter) (a b : Z) :
  fst (Meter_AddCountRead (fst (Meter_AddCountRead m a)) b)
    = fst (Meter_AddCountRead m (a + b))
  /\ fst (Meter_AddCountWrite (fst (Meter_AddCountWrite m a)) b)
     = fst (Meter_AddCountWrite m (a + b))
  /\ (Int64.ok (Meter_CountRead m) ->
      fst (Meter_AddCountRead (fst (Meter_AddCountRead m a)) (- a)) = m)
  /\ (Int64.ok (Meter_CountWrite m) ->
      fst (Meter_AddCountWrite (fst (Meter_AddCountWrite m a)) (- a)) = m).
Proof.
  destruct m as [rd wr rc wc]. unfold Meter_AddCountRead, Meter_AddCountWrite,
    Meter_CountRead, Meter_CountWrite. simpl.
  rewrite !Int64_wrap_add.
  split; [|split; [|split]].
  - now rewrite Z.add_assoc.
  - now rewrite Z.add_assoc.
  - intros Hok. replace (rc + a + - a) with rc by ring.
    now rewrite Int64_wrap_id.
  - intros Hok. replace (wc + a + - a) with wc by ring.
    now rewrite Int64_wrap_id.
Qed.

(* ------------------------------------------------------------------ *)
(** ** Further properties: many calls, and drains that end early *)

Section Cumulative.

Context {Ty Obj : Type} {E : Endpoint Ty Obj} {C : Copier Ty Obj}.

Local Abbreviation W := (World Ty Obj).

(** One [Read] below or at a set ceiling: the count is not negative, the
    counter moves by it and stays at or below the ceiling. *)
Lemma Limit_Read_advances (l : Limit) (w w' : W) (p buf : list byte)
      (l' : Limit) (n : Z) (err : option error) :
  reads_within ->
  Limit_MaxCountRead l <> Unlimited ->
  Int64.ok (Limit_MaxCountRead l) -> Int64.ok (Limit_CountRead l) ->
  Limit_CountRead l <= Limit_MaxCountRead l ->
  Limit_Read l w p = Ok (w', l', (buf, n, err)) ->
  0 <= n
  /\ Limit_CountRead l' = Limit_CountRead l + n
  /\ Limit_CountRead l' <= Limit_MaxCountRead l
  /\ Limit_MaxCountRead l' = Limit_MaxCountRead l.
Proof.
  intros HR Hmax Hokm Hokc Hle. unfold Limit_Read.
  destruct (Limit_Meter l) as [m|] eqn:Hm;
    [|intros H; inversion H; subst; repeat split; lia].
  destruct (Reader m) as [r|] eqn:Hr;
    [|intros H; inversion H; subst; repeat split; lia].
  destruct (Z.eqb_spec (Limit_MaxCountRead l) Unlimited) as [|_];
    [contradiction|].
  destruct (Z.geb_spec (Limit_CountRead l) (Limit_MaxCountRead l)) as [Hge|Hlt];
    [intros H; inversion H; subst; repeat split; lia|].
  destruct (truncate p (len p) (Limit_RemainingCountRead l)
              (Limit_MakeReadLimitError l w (len p)
                 (Limit_RemainingCountRead l)))
    as [[p' e]|] eqn:Ht; [|discriminate].
  apply truncate_fits in Ht. destruct Ht as [Hrem Hp'].
  unfold Limit_RemainingCountRead in Hrem, Hp'.
  rewrite remaining_plain in Hp' by assumption.
  destruct (obj_Read w r p') as [w1 [[q k] e1]] eqn:Hobj.
  apply (obj_Read_within _ _ _ _ _ _ _ HR) in Hobj. destruct Hobj as [Hk _].
  intros H.
  assert (Hl' : l' = with_Meter l (fst (Meter_AddCountRead m k))) by congruence.
  assert (Hn : n = k) by congruence. subst l' n.
  rewrite CountRead_after_add by assumption.
  rewrite Int64_wrap_id
    by (unfold Int64.ok, Int64.min, Int64.max in *; lia).
  repeat split; lia.
Qed.

Lemma Limit_Write_advances (l : Limit) (w w' : W) (p : list byte)
      (l' : Limit) (n : Z) (err : option error) :
  writes_within ->
  Limit_MaxCountWrite l <> Unlimited ->
  Int64.ok (Limit_MaxCountWrite l) -> Int64.ok (Limit_CountWrite l) ->
  Limit_CountWrite l <= Limit_MaxCountWrite l ->
  Limit_Write l w p = Ok (w', l', (n, err)) ->
  0 <= n
  /\ Limit_CountWrite l' = Limit_CountWrite l + n
  /\ Limit_CountWrite l' <= Limit_MaxCountWrite l
  /\ Limit_MaxCountWrite l' = Limit_MaxCountWrite l.
Proof.
  intros HW Hmax Hokm Hokc Hle. unfold Limit_Write.
  destruct (Limit_Meter l) as [m|] eqn:Hm;
    [|intros H; inversion H; subst; repeat split; lia].
  destruct (Writer m) as [r|] eqn:Hr;
    [|intros H; inversion H; subst; repeat split; lia].
  destruct (Z.eqb_spec (Limit_MaxCountWrite l) Unlimited) as [|_];
    [contradiction|].
  destruct (Z.geb_spec (Limit_CountWrite l) (Limit_MaxCountWrite l)) as [Hge|Hlt];
    [intros H; inversion H; subst; repeat split; lia|].
  destruct (truncate p (len p) (Limit_RemainingCountWrite l)
              (Limit_MakeWriteLimitError l w (len p)
                 (Limit_RemainingCountWrite l)))
    as [[p' e]|] eqn:Ht; [|discriminate].
  apply truncate_fits in Ht. destruct Ht as [Hrem Hp'].
  unfold Limit_RemainingCountWrite in Hrem, Hp'.
  rewrite remaining_plain in Hp' by assumption.
  destruct (obj_Write w r p') as [w1 [k e1]] eqn:Hobj.
  apply (obj_Write_within _ _ _ _ _ _ HW) in Hobj. destruct Hobj as [Hk _].
  intros H.
  assert (Hl' : l' = with_Meter l (fst (Meter_AddCountWrite m k))) by congruence.
  assert (Hn : n = k) by congruence. subst l' n.
  rewrite CountWrite_after_add by assumption.
  rewrite Int64_wrap_id
    by (unfold Int64.ok, Int64.min, Int64.max in *; lia).
  repeat split; lia.
Qed.

Lemma Limit_Reads_total (ps : list (list byte)) :
  reads_within ->
  forall (l : Limit) (w : W),
    Limit_MaxCountRead l <> Unlimited ->
    Int64.ok (Limit_MaxCountRead l) -> Int64.ok (Limit_CountRead l) ->
    Limit_CountRead l <= Limit_MaxCountRead l ->
    Int64.ok (Limit_MaxCountRead l - Limit_CountRead l) ->
    exists w' l' total,
      Limit_Reads l w ps = Ok (w', l', total)
      /\ 0 <= total <= Limit_MaxCountRead l - Limit_CountRead l
      /\ Limit_CountRead l' = Limit_CountRead l + total.
Proof.
  intros HR. induction ps as [|p ps IH]; intros l w Hmax Hokm Hokc Hle Hokd.
  - exists w, l, 0. simpl. repeat split; lia.
  - destruct (Limit_Read_returns l w p Hmax Hle Hokd)
      as (w1 & l1 & [[buf n] err] & Hcall).
    destruct (Limit_Read_advances l w w1 p buf l1 n err HR Hmax Hokm Hokc Hle
                Hcall) as (Hn & Hcnt & Hle1 & Hmax1).
    destruct (IH l1 w1) as (w2 & l2 & total & Hrun & Htot & Hcnt2).
    + now rewrite Hmax1.
    + now rewrite Hmax1.
    + rewrite Hcnt. unfold Int64.ok, Int64.min, Int64.max in *. lia.
    + now rewrite Hmax1.
    + rewrite Hmax1, Hcnt. unfold Int64.ok, Int64.min, Int64.max in *. lia.
    + exists w2, l2, (n + total). simpl. rewrite Hcall, Hrun.
      rewrite Hmax1, Hcnt in Htot. repeat split; lia.
Qed.

Lemma Limit_Writes_total (ps : list (list byte)) :
  writes_within ->
  forall (l : Limit) (w : W),
    Limit_MaxCountWrite l <> Unlimited ->
    Int64.ok (Limit_MaxCountWrite l) -> Int64.ok (Limit_CountWrite l) ->
    Limit_CountWrite l <= Limit_MaxCountWrite l ->
    Int64.ok (Limit_MaxCountWrite l - Limit_CountWrite l) ->
    exists w' l' total,
      Limit_Writes l w ps = Ok (w', l', total)
      /\ 0 <= total <= Limit_MaxCountWrite l - Limit_CountWrite l
      /\ Limit_CountWrite l' = Limit_CountWrite l + total.
Proof.
  intros HW. induction ps as [|p ps IH]; intros l w Hmax Hokm Hokc Hle Hokd.
  - exists w, l, 0. simpl. repeat split; lia.
  - destruct (Limit_Write_returns l w p Hmax Hle Hokd)
      as (w1 & l1 & [n err] & Hcall).
    destruct (Limit_Write_advances l w w1 p l1 n err HW Hmax Hokm Hokc Hle
                Hcall) as (Hn & Hcnt & Hle1 & Hmax1).
    destruct (IH l1 w1) as (w2 & l2 & total & Hrun & Htot & Hcnt2).
    + now rewrite Hmax1.
    + now rewrite Hmax1.
    + rewrite Hcnt. unfold Int64.ok, Int64.min, Int64.max in *. lia.
    + now rewrite Hmax1.
    + rewrite Hmax1, Hcnt. unfold Int64.ok, Int64.min, Int64.max in *. lia.
    + exists w2, l2, (n + total). simpl. rewrite Hcall, Hrun.
      rewrite Hmax1, Hcnt in Htot. repeat split; lia.
Qed.

(** X5. The ceiling bounds what any number of calls transfer together.
    Start with a set ceiling, counter <= ceiling (both [int64], their
    difference too), and endpoints that keep to the [io] contract.  Then
    any sequence of [Read] calls (resp. [Write] calls), whatever buffers
    it uses and whatever errors come back on the way, returns from every
    call, and the byte counts it returns sum up to at most
    ceiling - counter; the counter ends at its start plus that sum. *)
Theorem X5_calls_together_stay_within_the_ceiling
        (l : Limit) (w : W) (ps : list (list byte)) :
  (reads_within ->
   Limit_MaxCountRead l <> Unlimited ->
   Int64.ok (Limit_MaxCountRead l) -> Int64.ok (Limit_CountRead l) ->
   Limit_CountRead l <= Limit_MaxCountRead l ->
   Int64.ok (Limit_MaxCountRead l - Limit_CountRead l) ->
   exists w' l' total,
     Limit_Reads l w ps = Ok (w', l', total)
     /\ 0 <= total <= Limit_MaxCountRead l - Limit_CountRead l
     /\ Limit_CountRead l' = Limit_CountRead l + total)
  /\
  (writes_within ->
   Limit_MaxCountWrite l <> Unlimited ->
   Int64.ok (Limit_MaxCountWrite l) -> Int64.ok (Limit_CountWrite l) ->
   Limit_CountWrite l <= Limit_MaxCountWrite l ->
   Int64.ok (Limit_MaxCountWrite l - Limit_CountWrite l) ->
   exists w' l' total,
     Limit_Writes l w ps = Ok (w', l', total)
     /\ 0 <= total <= Limit_MaxCountWrite l - Limit_CountWrite l
     /\ Limit_CountWrite l' = Limit_CountWrite l + total).
Proof.
  split; intros Hwithin Hmax Hokm Hokc Hle Hokd.
  - now apply Limit_Reads_total.
  - now apply Limit_Writes_total.
Qed.

(** [io.CopyN] through the loop of [io.Copy], over well-behaved readers:
    nil error exactly when all [n0] bytes were copied. *)
Lemma io_CopyN_nil_iff (fuel : nat) (w w' : W) (dst src : ref) (n0 n : Z)
      (err : option error) :
  reads_within -> ep_IsReaderFrom (types w dst) = false ->
  0 < n0 <= Int64.max ->
  io_CopyN fuel w dst src n0 = Ok (w', (n, err)) ->
  0 <= n <= n0 /\ (err = None <-> n = n0).
Proof.
  intros HR Hrf Hn0. unfold io_CopyN. rewrite io_Copy_limited, Hrf.
  destruct (copy_loop fuel w dst (SrcLimited (mkLimitedReader src n0))
              (make (copy_size (SrcLimited (mkLimitedReader src n0)))) 0)
    as [[w1 [written e]]| |] eqn:Hloop; try discriminate.
  apply (copy_loop_limited_bound HR) in Hloop; [|lia|lia|lia].
  destruct (Z.eqb_spec written n0) as [Heq|Hne].
  - intros H. inversion H; subst. split; [lia|]. split; reflexivity.
  - destruct (Z.ltb_spec written n0) as [Hlt|Hge]; [|lia].
    destruct e as [e|]; simpl; intros H; inversion H; subst;
      (split; [lia|]); split; intros; (discriminate || lia).
Qed.

(** A [LimitedReader] over readers that make progress makes progress. *)
Lemma LimitedReader_Read_progress (w w' : W) (l l' : LimitedReader)
      (p q : list byte) (n : Z) (err : option error) :
  reads_progress -> 0 < len p ->
  LimitedReader_Read w l p = (w', l', (q, n, err)) ->
  0 < n \/ err <> None.
Proof.
  intros HP Hp. unfold LimitedReader_Read.
  destruct (Z.leb_spec (lr_N l) 0) as [H0|H0].
  - intros H. inversion H; subst. right. discriminate.
  - remember (if len p >? lr_N l then Z.to_nat (lr_N l) else List.length p)
      as k eqn:Hk.
    assert (Hlen : 0 < len (firstn k p)).
    { unfold len in *. rewrite length_firstn. subst k.
      destruct (Z.gtb_spec (Z.of_nat (List.length p)) (lr_N l)); lia. }
    unfold obj_Read.
    pose proof (HP (types w (lr_R l)) (objs w (lr_R l)) (firstn k p) Hlen)
      as Hn.
    destruct (ep_Read (types w (lr_R l)) (objs w (lr_R l)) (firstn k p))
      as [o [[q0 n0] e0]].
    simpl in Hn. intros H. inversion H; subst. exact Hn.
Qed.

(** Over readers that keep to the contract and make progress, the loop
    of [io.Copy] on a [LimitedReader] with [N] bytes left ends within
    [N + 1] turns. *)
Lemma copy_loop_limited_returns :
  reads_within -> reads_progress ->
  forall (fuel : nat) (w : W) (dst src : ref) (N : Z) (buf : list byte)
         (written : Z),
    0 <= N <= Int64.max -> 0 < len buf -> (Z.to_nat N < fuel)%nat ->
    exists w' n err,
      copy_loop fuel w dst (SrcLimited (mkLimitedReader src N)) buf written
        = Ok (w', (n, err)).
Proof.
  intros HR HP. induction fuel as [|fuel IH];
    intros w dst src N buf written HN Hbuf Hfuel; [lia|].
  rewrite copy_loop_step. unfold Source_Read.
  destruct (LimitedReader_Read w (mkLimitedReader src N) buf)
    as [[w1 l1] [[buf1 nr] er]] eqn:HLR.
  pose proof (LimitedReader_Read_length _ _ _ _ _ _ _ _ HR HLR) as [Hlen Hnr'].
  pose proof (LimitedReader_Read_progress _ _ _ _ _ _ _ _ HP Hbuf HLR) as Hprog.
  apply (LimitedReader_Read_within _ _ _ _ _ _ _ _ HR) in HLR;
    [|simpl; lia].
  destruct l1 as [src1 N1]. simpl in HLR. destruct HLR as (Hnr & HN1 & Hsrc).
  subst src1 N1. cbv zeta.
  assert (Hafter : forall w0 written0,
             exists w' n err,
               match er with
               | Some e =>
                   Ok (w0, (written0, if is_EOF e then None else Some e))
               | None => copy_loop fuel w0 dst
                           (SrcLimited (mkLimitedReader src (N - nr)))
                           buf1 written0
               end = Ok (w', (n, err))).
  { intros w0 written0. destruct er as [e|]; [eauto|].
    destruct Hprog as [Hpos|Hne]; [|congruence].
    apply IH; [lia|unfold len in *; lia|lia]. }
  destruct (Z.gtb_spec nr 0) as [Hpos|Hzero]; [|apply Hafter].
  rewrite slice_to_inside by (unfold len in *; lia).
  destruct (obj_Write w1 dst (firstn (Z.to_nat nr) buf1)) as [w2 [nw0 ew0]].
  destruct ((nw0 <? 0) || (nr <? nw0)); [eauto|].
  destruct ew0; [eauto|].
  destruct (negb (nr =? nw0)); [eauto|apply Hafter].
Qed.

Lemma len_make (z : Z) : 0 <= z -> len (make z) = z.
Proof. intros Hz. unfold len, make. rewrite repeat_length. lia. Qed.

Lemma io_CopyN_returns (fuel : nat) (w : W) (dst src : ref) (n0 : Z) :
  reads_within -> reads_progress ->
  ep_IsReaderFrom (types w dst) = false ->
  0 < n0 <= Int64.max -> (Z.to_nat n0 < fuel)%nat ->
  exists w' n err, io_CopyN fuel w dst src n0 = Ok (w', (n, err)).
Proof.
  intros HR HP Hrf Hn0 Hfuel. unfold io_CopyN. rewrite io_Copy_limited, Hrf.
  destruct (copy_loop_limited_returns HR HP fuel w dst src n0
              (make (copy_size (SrcLimited (mkLimitedReader src n0)))) 0)
    as (w1 & written & e & Hloop); [lia| |assumption|].
  - unfold copy_size. cbv zeta. cbn [lr_N].
    destruct (32 * 1024 >? n0); [destruct (n0 <? 1)|];
      rewrite len_make; lia.
  - rewrite Hloop. destruct (written =? n0); [eauto|].
    destruct ((written <? n0) && match e with None => true | Some _ => false end);
      eauto.
Qed.

(** X6. A drain below a set ceiling with rem > 0 bytes remaining, run by
    the loop of [io.Copy] (the destination has no [ReadFrom] method),
    over readers that keep to the [io] contract and make progress: the
    call returns -- rem + 1 turns of the loop are enough --, what
    [ReadFrom] (resp. [WriteTo]) returns is between 0 and rem bytes, the
    counter moves by it, and the error is nil exactly when all rem bytes
    were copied.  A drain that ends early, be it only because its source
    ran dry, comes back with an error ([io.EOF] at the least). *)
Theorem X6_bounded_drain_nil_only_when_full
        (fuel : nat) (l : Limit) (m : Meter) (w : W) (bound other : ref) :
  reads_within -> reads_progress ->
  Limit_Meter l = Some m ->
  (Writer m = Some bound ->
   ep_IsReaderFrom (types w bound) = false ->
   Limit_MaxCountWrite l <> Unlimited ->
   0 < Limit_RemainingCountWrite l ->
   (Z.to_nat (Limit_RemainingCountWrite l) < fuel)%nat ->
   exists w' l' n err,
     Limit_ReadFrom fuel l w other = Ok (w', l', (n, err))
     /\ 0 <= n <= Limit_RemainingCountWrite l
     /\ (err = None <-> n = Limit_RemainingCountWrite l)
     /\ Limit_CountWrite l' = Int64.wrap (Limit_CountWrite l + n))
  /\
  (Reader m = Some bound ->
   ep_IsReaderFrom (types w other) = false ->
   Limit_MaxCountRead l <> Unlimited ->
   0 < Limit_RemainingCountRead l ->
   (Z.to_nat (Limit_RemainingCountRead l) < fuel)%nat ->
   exists w' l' n err,
     Limit_WriteTo fuel l w other = Ok (w', l', (n, err))
     /\ 0 <= n <= Limit_RemainingCountRead l
     /\ (err = None <-> n = Limit_RemainingCountRead l)
     /\ Limit_CountRead l' = Int64.wrap (Limit_CountRead l + n)).
Proof.
  intros HR HP Hm. split; intros Hb Hrf Hmax Hrem Hfuel.
  - pose proof (Int64_wrap_ok (Limit_MaxCountWrite l - Limit_CountWrite l))
      as Hok.
    fold (Limit_RemainingCountWrite l) in Hok.
    assert (Hn0 : 0 < Limit_RemainingCountWrite l <= Int64.max)
      by (unfold Int64.ok in Hok; lia).
    destruct (io_CopyN_returns fuel w bound other
                (Limit_RemainingCountWrite l) HR HP Hrf Hn0 Hfuel)
      as (w1 & k & e & Hcopy).
    exists w1, (with_Meter l (fst (Meter_AddCountWrite m k))), k, e.
    split.
    + unfold Limit_ReadFrom. rewrite Hm, Hb.
      destruct (Z.eqb_spec (Limit_MaxCountWrite l) Unlimited) as [|_];
        [contradiction|].
      destruct (Z.leb_spec (Limit_RemainingCountWrite l) 0); [lia|].
      rewrite Hcopy. reflexivity.
    + apply (io_CopyN_nil_iff _ _ _ _ _ _ _ _ HR Hrf Hn0) in Hcopy.
      rewrite CountWrite_after_add by assumption. tauto.
  - pose proof (Int64_wrap_ok (Limit_MaxCountRead l - Limit_CountRead l))
      as Hok.
    fold (Limit_RemainingCountRead l) in Hok.
    assert (Hn0 : 0 < Limit_RemainingCountRead l <= Int64.max)
      by (unfold Int64.ok in Hok; lia).
    destruct (io_CopyN_returns fuel w other bound
                (Limit_RemainingCountRead l) HR HP Hrf Hn0 Hfuel)
      as (w1 & k & e & Hcopy).
    exists w1, (with_Meter l (fst (Meter_AddCountRead m k))), k, e.
    split.
    + unfold Limit_WriteTo. rewrite Hm, Hb.
      destruct (Z.eqb_spec (Limit_MaxCountRead l) Unlimited) as [|_];
        [contradiction|].
      destruct (Z.leb_spec (Limit_RemainingCountRead l) 0); [lia|].
      rewrite Hcopy. reflexivity.
    + apply (io_CopyN_nil_iff _ _ _ _ _ _ _ _ HR Hrf Hn0) in Hcopy.
      rewrite CountRead_after_add by assumption. tauto.
Qed.

End Cumulative.

(* ------------------------------------------------------------------ *)
(** ** Further properties: what a drain counts *)

Lemma written_to_app (dst : ref) (a b : list Event) :
  written_to dst (a ++ b) = written_to dst a + written_to dst b.
Proof.
  induction a as [|[r k|r p|r] a IH]; simpl; rewrite ?IH; lia.
Qed.

Lemma written_to_nonneg (dst : ref) (t : list Event) : 0 <= written_to dst t.
Proof.
  induction t as [|[r k|r p|r] t IH]; simpl; try lia.
  pose proof (len_nonneg p). destruct (Nat.eqb r dst); lia.
Qed.

Lemma slice_to_len (p c : list byte) (hi : Z) :
  slice_to p hi = Some c -> len c = hi.
Proof.
  unfold slice_to.
  destruct (Z.leb_spec 0 hi); [|discriminate].
  destruct (Z.leb_spec hi (len p)); [|discriminate].
  simpl. intros Heq. inversion Heq; subst.
  unfold len in *. rewrite length_firstn. lia.
Qed.

Section Accounting.

Context {Ty Obj : Type} {E : Endpoint Ty Obj} {C : Copier Ty Obj}.

Local Abbreviation W := (World Ty Obj).

Lemma Source_Read_trace (dst : ref) (w w' : W) (src src' : Source)
      (p : list byte) (res : list byte * Z * option error) :
  Source_Read w src p = (w', src', res) ->
  exists t, trace w' = trace w ++ t /\ written_to dst t = 0.
Proof.
  unfold Source_Read. destruct src as [r|lr].
  - destruct (obj_Read w r p) as [w1 res1] eqn:Hobj.
    intros H. inversion H; subst.
    exists [EvRead r (List.length p)]. split; [|reflexivity].
    now apply obj_Read_trace in Hobj.
  - unfold LimitedReader_Read. destruct (lr_N lr <=? 0).
    + intros H. inversion H; subst. exists []. rewrite app_nil_r. auto.
    + match goal with
      | |- context [obj_Read w (lr_R lr) ?q] =>
          destruct (obj_Read w (lr_R lr) q) as [w1 [[q1 n1] e1]] eqn:Hobj
      end.
      intros H. inversion H; subst.
      eexists. split; [exact (obj_Read_trace _ _ _ _ _ Hobj)|reflexivity].
Qed.

(** The loop of [io.Copy] only appends to the trace, and when it ends
    without an error every slice it handed to the writer was taken
    whole: what it returns is what it started from plus the bytes of
    those slices. *)
Lemma copy_loop_accounting (fuel : nat) :
  forall (w : W) (dst : ref) (src : Source) (buf : list byte) (written : Z)
         (w' : W) (n : Z) (err : option error),
    copy_loop fuel w dst src buf written = Ok (w', (n, err)) ->
    exists t,
      trace w' = trace w ++ t
      /\ (err = None -> 0 <= written ->
          written + written_to dst t <= Int64.max ->
          n = written + written_to dst t).
Proof.
  induction fuel as [|fuel IH];
    intros w dst src buf written w' n err; [discriminate|].
  rewrite copy_loop_step.
  destruct (Source_Read w src buf) as [[w1 src1] [[buf1 nr] er]] eqn:HS.
  destruct (Source_Read_trace dst _ _ _ _ _ _ HS) as (t0 & Ht0 & Hw0).
  cbv zeta.
  assert (Hafter : forall (w0 : W) (written0 : Z) (t1 : list Event),
             trace w0 = trace w ++ t1 ->
             (0 <= written -> written + written_to dst t1 <= Int64.max ->
              written0 = written + written_to dst t1) ->
             match er with
             | Some e => Ok (w0, (written0, if is_EOF e then None else Some e))
             | None => copy_loop fuel w0 dst src1 buf1 written0
             end = Ok (w', (n, err)) ->
             exists t,
               trace w' = trace w ++ t
               /\ (err = None -> 0 <= written ->
                   written + written_to dst t <= Int64.max ->
                   n = written + written_to dst t)).
  { intros w0 written0 t1 Htr Hw1. destruct er as [e|].
    - intros H. inversion H; subst. exists t1. split; [exact Htr|].
      intros _ H0 Hmax. now apply Hw1.
    - intros H. apply IH in H. destruct H as (t2 & Htr2 & Hn2).
      exists (t1 ++ t2). split; [rewrite Htr2, Htr, app_assoc; reflexivity|].
      intros Herr H0 Hmax. rewrite written_to_app in *.
      pose proof (written_to_nonneg dst t1). pose proof (written_to_nonneg dst t2).
      assert (Hw0' : written0 = written + written_to dst t1)
        by (apply Hw1; lia).
      rewrite Hn2; [lia|assumption|lia|lia]. }
  destruct (Z.gtb_spec nr 0) as [Hpos|Hzero].
  - destruct (slice_to buf1 nr) as [chunk|] eqn:Hsl; [|discriminate].
    apply slice_to_len in Hsl.
    destruct (obj_Write w1 dst chunk) as [w2 [nw0 ew0]] eqn:HWr.
    apply obj_Write_trace in HWr.
    assert (Htr2 : trace w2 = trace w ++ (t0 ++ [EvWrite dst chunk]))
      by (rewrite HWr, Ht0, app_assoc; reflexivity).
    destruct ((nw0 <? 0) || (nr <? nw0)).
    + intros H. inversion H; subst. eexists. split; [exact Htr2|discriminate].
    + destruct ew0 as [e|].
      * intros H. inversion H; subst. eexists. split; [exact Htr2|discriminate].
      * destruct (Z.eqb_spec nr nw0) as [Heq|Hne]; simpl.
        -- apply (Hafter w2 _ _ Htr2). intros H0 Hmax.
           rewrite written_to_app in *. simpl in *.
           rewrite Nat.eqb_refl in *. subst nw0.
           rewrite Hw0 in *.
           rewrite Int64_wrap_id
             by (unfold Int64.ok, Int64.min, Int64.max in *; lia).
           lia.
        -- intros H. inversion H; subst. eexists.
           split; [exact Htr2|discriminate].
  - apply (Hafter w1 written t0 Ht0). intros _ _. lia.
Qed.

(** X7. Let neither the source have a [WriteTo] method nor the
    destination a [ReadFrom] method, so that [io.Copy] runs its own
    loop.  When [Meter.ReadFrom] (resp. [Meter.WriteTo]) then returns
    without an error, the count it returns, and adds to the write (resp.
    read) counter, is the number of bytes in the slices that were handed
    to the writer (resp. to the sink) during the call, each of which was
    taken whole.  (The total is taken to fit an [int64].) *)
Theorem X7_drain_counts_what_the_writer_took
        (fuel : nat) (m : Meter) (w w' : W) (bound other : ref)
        (m' : Meter) (n : Z) :
  (Writer m = Some bound ->
   ep_IsWriterTo (types w other) = false ->
   ep_IsReaderFrom (types w bound) = false ->
   Meter_ReadFrom fuel m w other = Ok (w', m', (n, None)) ->
   exists t,
     trace w' = trace w ++ t
     /\ (written_to bound t <= Int64.max ->
         n = written_to bound t
         /\ Meter_CountWrite m'
            = Int64.wrap (Meter_CountWrite m + written_to bound t)
         /\ Meter_CountRead m' = Meter_CountRead m))
  /\
  (Reader m = Some bound ->
   ep_IsWriterTo (types w bound) = false ->
   ep_IsReaderFrom (types w other) = false ->
   Meter_WriteTo fuel m w other = Ok (w', m', (n, None)) ->
   exists t,
     trace w' = trace w ++ t
     /\ (written_to other t <= Int64.max ->
         n = written_to other t
         /\ Meter_CountRead m'
            = Int64.wrap (Meter_CountRead m + written_to other t)
         /\ Meter_CountWrite m' = Meter_CountWrite m)).
Proof.
  split; intros Hb Hwt Hrf.
  - unfold Meter_ReadFrom, io_Copy, is_WriterTo. rewrite Hb, Hwt, Hrf.
    destruct (copy_loop fuel w bound (SrcObj other)
                (make (copy_size (SrcObj other))) 0)
      as [[w1 [k e]]| |] eqn:Hloop; try discriminate.
    intros Hret.
    assert (Hm' : m' = fst (Meter_AddCountWrite m k)) by congruence.
    assert (Hw' : w' = w1) by congruence.
    assert (Hn : n = k) by congruence.
    assert (He : e = None) by congruence. subst m' w' n e.
    apply copy_loop_accounting in Hloop. destruct Hloop as (t & Htr & Hk).
    exists t. split; [exact Htr|]. intros Hmax.
    rewrite Hk by (reflexivity || lia). simpl. repeat split.
  - unfold Meter_WriteTo, io_Copy, is_WriterTo. rewrite Hb, Hwt, Hrf.
    destruct (copy_loop fuel w other (SrcObj bound)
                (make (copy_size (SrcObj bound))) 0)
      as [[w1 [k e]]| |] eqn:Hloop; try discriminate.
    intros Hret.
    assert (Hm' : m' = fst (Meter_AddCountRead m k)) by congruence.
    assert (Hw' : w' = w1) by congruence.
    assert (Hn : n = k) by congruence.
    assert (He : e = None) by congruence. subst m' w' n e.
    apply copy_loop_accounting in Hloop. destruct Hloop as (t & Htr & Hk).
    exists t. split; [exact Htr|]. intros Hmax.
    rewrite Hk by (reflexivity || lia). simpl. repeat split.
Qed.

(** [Meter.close] leaves the dynamic types alone and appends one close
    event per closable binding, in order. *)
Lemma Meter_close_trace (v : list (option ref)) :
  forall (w : W) (acc : option error),
    types (fst (fold_left close_step v (w, acc))) = types w
    /\ trace (fst (fold_left close_step v (w, acc)))
       = trace w ++ map EvClose (closable (types w) v).
Proof.
  induction v as [|[r|] v IH]; intros w acc; cbn [fold_left closable].
  - simpl. rewrite app_nil_r. auto.
  - destruct (ep_IsCloser (types w r)) eqn:Hc.
    + destruct (obj_Close w r) as [w1 e] eqn:Hcl.
      rewrite (close_step_closer w w1 acc e r Hc Hcl).
      destruct (obj_Close_world _ _ _ _ Hcl) as [Hty Htr].
      destruct (IH w1 (errors_Join [acc; e])) as [IHty IHtr].
      rewrite IHty, IHtr, Hty, Htr, <- app_assoc. auto.
    + rewrite (close_step_no_closer w acc r Hc). apply IH.
  - apply IH.
Qed.

(** X9. [Close] can be called again and does the same again: each call
    of [Meter.Close] calls close on every bound endpoint whose type has a
    close method, reader binding first, whether or not it was closed
    before -- the Meter keeps no memory of a close. *)
Theorem X9_Close_again_closes_again (m : Meter) (w : W) :
  let closed := map EvClose (closable (types w) [Reader m; Writer m]) in
  let w1 := fst (Meter_Close m w) in
  let w2 := fst (Meter_Close m w1) in
  trace w1 = trace w ++ closed
  /\ trace w2 = trace w ++ closed ++ closed
  /\ forall l, Limit_Meter l = Some m ->
       trace (fst (Limit_Close l (fst (Limit_Close l w))))
         = trace w ++ closed ++ closed.
Proof.
  intros closed w1 w2. unfold w2, w1, closed, Meter_Close, Meter_close.
  destruct (Meter_close_trace [Reader m; Writer m] w None) as [Hty1 Htr1].
  destruct (Meter_close_trace [Reader m; Writer m]
              (fst (fold_left close_step [Reader m; Writer m] (w, None))) None)
    as [Hty2 Htr2].
  rewrite Hty1 in Htr2.
  assert (H2 : trace (fst (fold_left close_step [Reader m; Writer m]
                 (fst (fold_left close_step [Reader m; Writer m] (w, None)),
                  None)))
               = trace w ++ map EvClose (closable (types w) [Reader m; Writer m])
                   ++ map EvClose (closable (types w) [Reader m; Writer m])).
  { rewrite Htr2, Htr1, <- app_assoc. reflexivity. }
  split; [exact Htr1|]. split; [exact H2|].
  intros l Hl. unfold Limit_Close. rewrite Hl.
  unfold Meter_Close, Meter_close. exact H2.
Qed.

End Accounting.

(* ------------------------------------------------------------------ *)
(** ** Further properties: operation names and error texts *)

(** The values of the [switch] of [IO.String], one after the other. *)
Ltac io_cases x :=
  destruct (Z.eqb_spec x IO.Read);
  [|destruct (Z.eqb_spec x IO.Write);
    [|destruct (Z.eqb_spec x IO.Close);
      [|destruct (Z.eqb_spec x IO.ReadWrite);
        [|destruct (Z.eqb_spec x IO.NOP);
          [|destruct (Z.eqb_spec x IO.DEADBEEF)]]]]].

Lemma IO_String_unknown (a : IO.t) :
  IO.String a = "unknown"%string
  <-> a <> IO.Read /\ a <> IO.Write /\ a <> IO.Close
      /\ a <> IO.ReadWrite /\ a <> IO.NOP /\ a <> IO.DEADBEEF.
Proof.
  unfold IO.String. io_cases a;
    (split;
     [ try (intros H; discriminate H); intros _; repeat split; assumption
     | intros (? & ? & ? & ? & ? & ?); try contradiction; reflexivity ]).
Qed.

Lemma IO_String_injective (a b : IO.t) :
  IO.String a = IO.String b -> IO.String a <> "unknown"%string -> a = b.
Proof.
  unfold IO.String. io_cases a; io_cases b;
    intros Heq Hu; try discriminate Heq; try congruence.
Qed.

(** X10. [IO.String] names the six declared values apart -- no two of
    them share a name -- and gives "unknown" for every other value and
    for no declared one. *)
Theorem X10_IO_String_names (a b : IO.t) :
  (IO.String a = "unknown"%string
   <-> a <> IO.Read /\ a <> IO.Write /\ a <> IO.Close
       /\ a <> IO.ReadWrite /\ a <> IO.NOP /\ a <> IO.DEADBEEF)
  /\ (IO.String a = IO.String b ->
      IO.String a <> "unknown"%string -> a = b).
Proof.
  split; [apply IO_String_unknown | apply IO_String_injective].
Qed.

(** X11. [LimitError.Error] chooses the ceiling it reports by testing the
    bits of the operation, the read bit first.
    - An error made by [MakeReadLimitError] (resp.
      [MakeWriteLimitError]) reads "short read" (resp. "short write")
      with the accepted and requested counts and the read (resp. write)
      ceiling that the Limit has when the text is made, not when the
      error was.
    - An operation with both bits ([ReadWrite]) reports the read
      ceiling.
    - An operation with neither bit gives the invalid-operation text
      and does not follow the Limit pointer, so the zero LimitError
      renders; with a bit set and a nil Limit the call panics. *)
Theorem X11_LimitError_texts
        (deref : ptr -> option Limit) (invalid : string)
        (a : ptr) (req n : Z) :
  (forall l, deref a = Some l ->
     LimitError_Error deref invalid (mkLimitError a IO.Read req n)
       = Ok ("short read: " ++ decimal n ++ " of " ++ decimal req
             ++ " bytes (cumulative read limit = "
             ++ decimal (Limit_MaxCountRead l) ++ " bytes)")%string
     /\ LimitError_Error deref invalid (mkLimitError a IO.Write req n)
        = Ok ("short write: " ++ decimal n ++ " of " ++ decimal req
              ++ " bytes (cumulative write limit = "
              ++ decimal (Limit_MaxCountWrite l) ++ " bytes)")%string
     /\ LimitError_Error deref invalid (mkLimitError a IO.ReadWrite req n)
        = Ok ("short read/write: " ++ decimal n ++ " of " ++ decimal req
              ++ " bytes (cumulative read/write limit = "
              ++ decimal (Limit_MaxCountRead l) ++ " bytes)")%string)
  /\ (forall op,
        Z.land op IO.Read = 0 -> Z.land op IO.Write = 0 ->
        LimitError_Error deref invalid (mkLimitError a op req n) = Ok invalid)
  /\ (forall op,
        deref a = None ->
        Z.land op IO.Read <> 0 \/ Z.land op IO.Write <> 0 ->
        LimitError_Error deref invalid (mkLimitError a op req n) = Panic).
Proof.
  split; [|split].
  - intros l Hl. unfold LimitError_Error. simpl. rewrite Hl.
    repeat split.
  - intros op H1 H2. unfold LimitError_Error. simpl.
    rewrite H1, H2. reflexivity.
  - intros op Hnil Hbit. unfold LimitError_Error. simpl. rewrite Hnil.
    destruct (Z.eqb_spec (Z.land op IO.Read) 0) as [H1|H1]; [|reflexivity].
    destruct (Z.eqb_spec (Z.land op IO.Write) 0) as [H2|H2]; [|reflexivity].
    tauto.
Qed.

(* ------------------------------------------------------------------ *)
(** ** Further properties: internal.Error *)

Lemma In_non_nil (x : error) (errs : list (option error)) :
  In x (non_nil errs) <-> In (Some x) errs.
Proof.
  induction errs as [|[e|] errs IH]; simpl.
  - tauto.
  - rewrite IH. split; intros [H|H]; auto; left; congruence.
  - rewrite IH. split; [auto|]. intros [H|H]; [discriminate|assumption].
Qed.

(** X12. [Error.Wrap] replaces what an Error wraps: the new list is the
    non-nil arguments in order, what was wrapped before is gone, cause
    and time stay.  Every error wrapped that way is found by
    [errors.Is]: the wrapping Error matches whatever one of them
    matches. *)
Theorem X12_Wrap_replaces_and_exposes
        (e : Error) (first second : list (option error)) (x t : error) :
  Error_Unwrap (Error_Wrap e second) = non_nil second
  /\ Error_Wrap (Error_Wrap e first) second = Error_Wrap e second
  /\ Error_Cause (Error_Wrap e second) = Error_Cause e
  /\ Error_When (Error_Wrap e second) = Error_When e
  /\ (forall y, In y (Error_Unwrap (Error_Wrap e second))
                <-> In (Some y) second)
  /\ (In (Some x) second -> errors_is x t = true ->
      errors_is (Error_to_error (Error_Wrap e second)) t = true).
Proof.
  repeat split; try (apply In_non_nil).
  intros Hin Hx. unfold Error_to_error, Error_Wrap. simpl.
  rewrite !orb_true_iff. right. right.
  apply existsb_exists. exists x. split; [|exact Hx].
  now apply In_non_nil.
Qed.

(** What [errors.Is] finds against a target that is an [internal.Error]
    depends on the cause of the target alone, whatever error is looked
    through. *)
Lemma errors_is_target_cause :
  forall (err : error) (when1 when2 : Z) (c : error)
         (wrap1 wrap2 : list error),
    errors_is err (InternalError when1 c wrap1)
      = errors_is err (InternalError when2 c wrap2).
Proof.
  fix IH 1.
  intros [id|le|when cause wrap|errs] when1 when2 c wrap1 wrap2; simpl.
  - reflexivity.
  - reflexivity.
  - f_equal.
    induction wrap as [|a wrap IHw]; simpl; [reflexivity|].
    rewrite (IH a when1 when2 c wrap1 wrap2), IHw. reflexivity.
  - induction errs as [|a errs IHe]; simpl; [reflexivity|].
    rewrite (IH a when1 when2 c wrap1 wrap2), IHe. reflexivity.
Qed.

(** X13. [errors.Is] against an Error looks at the cause of that Error
    and at nothing else of it: for every error [err], however it wraps
    and joins others, two target Errors with the same cause give the
    same answer, whenever they were made and whatever they wrap.  An
    Error that wraps nothing matches an Error exactly when its cause
    matches that Error's cause, and an Error whose cause matches the
    cause of the target matches it whatever it wraps itself. *)
Theorem X13_Is_compares_causes (e t t' : Error) (err : error) :
  (Error_Cause t = Error_Cause t' ->
   errors_is err (Error_to_error t) = errors_is err (Error_to_error t'))
  /\ (Error_wrap e = [] ->
      errors_is (Error_to_error e) (Error_to_error t)
        = errors_is (Error_Cause e) (Error_Cause t))
  /\ (errors_is (Error_Cause e) (Error_Cause t) = true ->
      errors_is (Error_to_error e) (Error_to_error t) = true).
Proof.
  split; [|split].
  - unfold Error_to_error, Error_Cause. intros ->.
    apply errors_is_target_cause.
  - intros Hw. unfold Error_to_error, Error_Cause. rewrite Hw. simpl.
    rewrite orb_false_r. reflexivity.
  - intros Hc. unfold Error_to_error, Error_Cause in *. simpl.
    rewrite Hc. reflexivity.
Qed.

(* ------------------------------------------------------------------ *)
(** ** The plain endpoints keep to the contract and make progress *)

Lemma Plain_reads_within : @reads_within Plain.Ty Plain.Obj Plain.endpoint.
Proof.
  intros t o p. destruct t.
  - exact (Mock_reads_within Mock.BytesReader o p).
  - simpl. pose proof (len_nonneg p). lia.
Qed.

Lemma Plain_reads_progress :
  @reads_progress Plain.Ty Plain.Obj Plain.endpoint.
Proof.
  intros t o p Hp. destruct t; simpl; [|right; discriminate].
  destruct (Mock.data o) as [|b d] eqn:Hd; [right; discriminate|].
  left. unfold Mock.take. rewrite Hd. simpl. unfold len in Hp. lia.
Qed.

(* ------------------------------------------------------------------ *)
(** ** The further statements at concrete inputs *)

Section Runs2.

Import Scenario Scenario2.

(** Ceiling 13 and a 13-byte write: all of it goes through, no error. *)
Lemma X2_witness :
  len Mock.hello <= Limit_RemainingCountWrite
                      (NewWriteLimit 7%nat (Some 1%nat) 13)
  /\ Limit_Write (NewWriteLimit 7%nat (Some 1%nat) 13) wA Mock.hello
     = via_Meter (NewWriteLimit 7%nat (Some 1%nat) 13)
         (Ok (Meter_Write (NewWriteMeter (Some 1%nat)) wA Mock.hello)).
Proof.
  split; [vm_compute; discriminate|].
  apply (proj2 (X2_fitting_request_is_the_Meter
                  (NewWriteLimit 7%nat (Some 1%nat) 13)
                  (NewWriteMeter (Some 1%nat)) wA Mock.hello eq_refl));
    [discriminate | reflexivity | vm_compute; discriminate].
Defined.

(** Ceiling 2^63 - 1 over a counter of -1. *)
Lemma X3_witness :
  Limit_MaxCountRead lR_huge - Limit_CountRead lR_huge > Int64.max
  /\ Limit_RemainingCountRead lR_huge = - 2 ^ 63
  /\ Limit_Read lR_huge wA buf13 = Panic
  /\ Limit_WriteTo 10 lR_huge wA 1%nat
     = Ok (wA, lR_huge,
           (0, Some (MakeError 0
                  (LimitErr (mkLimitError 7%nat IO.Read (- 2 ^ 63) 0))))).
Proof.
  split; [reflexivity|].
  destruct (proj1 (X3_remaining_capacity_wraps_around lR_huge wA)
              eq_refl
              ltac:(vm_compute; split; discriminate)
              ltac:(vm_compute; split; discriminate)
              ltac:(reflexivity)) as (Hrem & Hread & Hdrain).
  split; [exact Hrem|]. split; [apply Hread | apply Hdrain].
Defined.

(** The zero Limit. *)
Lemma X4_witness :
  Limit_CanRead l_zero = false
  /\ Limit_Read l_zero wA buf13 = Ok (wA, l_zero, (buf13, 0, Some io_ErrClosedPipe))
  /\ Limit_WriteTo 10 l_zero wA 1%nat = Ok (wA, l_zero, (0, Some io_ErrClosedPipe)).
Proof.
  split; [reflexivity|].
  apply (proj1 (proj2 (proj2 (X4_unbound_direction_is_a_closed_pipe
                                wA buf13 10 1%nat))) l_zero eq_refl).
Defined.

(** Three reads of 13 bytes under a ceiling of 5. *)
Lemma X5_witness :
  exists w' l' total,
    Limit_Reads lR5 wA [buf13; buf13; buf13] = Ok (w', l', total)
    /\ 0 <= total <= Limit_MaxCountRead lR5 - Limit_CountRead lR5
    /\ Limit_CountRead l' = Limit_CountRead lR5 + total.
Proof.
  apply (proj1 (X5_calls_together_stay_within_the_ceiling
                  lR5 wA [buf13; buf13; buf13])
           Mock_reads_within
           ltac:(discriminate)
           ltac:(vm_compute; split; discriminate)
           ltac:(vm_compute; split; discriminate)
           ltac:(vm_compute; discriminate)
           ltac:(vm_compute; split; discriminate)).
Defined.

(** A plain source of 13 bytes under a ceiling of 20: 13 bytes and
    [io.EOF]. *)
Lemma X6_witness :
  exists w' l',
    Limit_WriteTo 21 (NewReadLimit 7%nat (Some 0%nat) 20) wPlain 1%nat
      = Ok (w', l', (13, Some io_EOF))
    /\ (Some io_EOF = None <-> 13 = 20)
    /\ Limit_CountRead l' = 13.
Proof.
  assert (Hres : match Limit_WriteTo 21 (NewReadLimit 7%nat (Some 0%nat) 20)
                         wPlain 1%nat with
                 | Ok (_, _, (n, err)) => n = 13 /\ err = Some io_EOF
                 | _ => False
                 end).
  { vm_compute. split; reflexivity. }
  assert (Hrem : 0 < Limit_RemainingCountRead
                       (NewReadLimit 7%nat (Some 0%nat) 20)) by reflexivity.
  assert (Hfuel : (Z.to_nat (Limit_RemainingCountRead
                               (NewReadLimit 7%nat (Some 0%nat) 20)) < 21)%nat)
    by (vm_compute; lia).
  assert (Hrf : ep_IsReaderFrom (types wPlain 1%nat) = false) by reflexivity.
  destruct (proj2 (X6_bounded_drain_nil_only_when_full
                     21 (NewReadLimit 7%nat (Some 0%nat) 20)
                     (NewReadMeter (Some 0%nat)) wPlain 0%nat 1%nat
                     Plain_reads_within Plain_reads_progress eq_refl)
              eq_refl Hrf ltac:(discriminate) Hrem Hfuel)
    as (w' & l' & n & err & Hcall & _ & Hiff & Hcount).
  rewrite Hcall in Hres. destruct Hres as [Hn Herr]. subst n err.
  exists w', l'. split; [exact Hcall|]. split; [exact Hiff|].
  rewrite Hcount. reflexivity.
Defined.

(** Draining the plain 13-byte reader into the plain writer through a
    Meter. *)
Lemma X7_witness :
  exists w' m',
    Meter_ReadFrom 10 (NewWriteMeter (Some 1%nat)) wPlain 0%nat
      = Ok (w', m', (13, None))
    /\ written_to 1%nat (trace w') = 13
    /\ Meter_CountWrite m' = 13.
Proof.
  assert (Hres : match Meter_ReadFrom 10 (NewWriteMeter (Some 1%nat))
                         wPlain 0%nat
                  with
                  | Ok (w', _, (n, err)) =>
                      n = 13 /\ err = None /\ written_to 1%nat (trace w') = 13
                  | _ => False
                  end).
  { vm_compute. repeat split. }
  revert Hres.
  destruct (Meter_ReadFrom 10 (NewWriteMeter (Some 1%nat)) wPlain 0%nat)
    as [[[w' m'] [n err]]| |] eqn:Hrun; intro Hres; try contradiction.
  destruct Hres as (Hn13 & Herr & Hwt). subst n err.
  assert (Hwt0 : ep_IsWriterTo (types wPlain 0%nat) = false) by reflexivity.
  assert (Hrf : ep_IsReaderFrom (types wPlain 1%nat) = false) by reflexivity.
  destruct (proj1 (X7_drain_counts_what_the_writer_took
                     10 (NewWriteMeter (Some 1%nat)) wPlain w' 1%nat 0%nat
                     m' 13)
              eq_refl Hwt0 Hrf Hrun) as (t & Htr & Hn).
  assert (Ht : written_to 1%nat t = 13).
  { rewrite Htr, written_to_app in Hwt. exact Hwt. }
  rewrite Ht in Hn.
  destruct (Hn ltac:(vm_compute; discriminate)) as (_ & Hcount & _).
  exists w', m'. split; [reflexivity|]. split; [exact Hwt|].
  rewrite Hcount. reflexivity.
Defined.

(** Adding 13 and taking it back. *)
Lemma X8_witness :
  fst (Meter_AddCountRead
         (fst (Meter_AddCountRead (NewReadMeter (Some 0%nat)) 13)) (- 13))
    = NewReadMeter (Some 0%nat).
Proof.
  apply (proj1 (proj2 (proj2 (X8_AddCount_composes
                                (NewReadMeter (Some 0%nat)) 13 0)))).
  vm_compute. split; discriminate.
Defined.

(** [IO(10)] of the package's test. *)
Lemma X10_witness : IO.String 10 = "unknown"%string.
Proof.
  apply (proj2 (proj1 (X10_IO_String_names 10 0))).
  repeat split; discriminate.
Defined.

(** The text of the error of the first read of [TestLimit_Read]. *)
Lemma X11_witness :
  LimitError_Error heap7 "invalid operation"
    (mkLimitError 7%nat IO.Read 13 5)
    = Ok "short read: 5 of 13 bytes (cumulative read limit = 5 bytes)"%string.
Proof.
  exact (proj1 (proj1 (X11_LimitError_texts heap7 "invalid operation"
                         7%nat 13 5)
                  (NewLimit 7%nat (Some 0%nat) 5 (Some 1%nat) 9) eq_refl)).
Defined.

Lemma X12_witness :
  errors_is
    (Error_to_error
       (Error_Wrap (mkError 0 (Opaque "cause") [io_ErrShortWrite])
          [None; Some io_EOF]))
    io_EOF = true.
Proof.
  apply (proj2 (proj2 (proj2 (proj2 (proj2
           (X12_Wrap_replaces_and_exposes
              (mkError 0 (Opaque "cause") [io_ErrShortWrite])
              [] [None; Some io_EOF] io_EOF io_EOF))))));
    [right; left; reflexivity | reflexivity].
Defined.

Lemma X13_witness :
  errors_is
    (JoinError
       [io_EOF; MakeError 1 (LimitErr (mkLimitError 7%nat IO.Read 13 5))])
    (Error_to_error
       (mkError 2 (LimitErr (mkLimitError 7%nat IO.Read 13 5)) [io_EOF]))
  = errors_is
      (JoinError
         [io_EOF; MakeError 1 (LimitErr (mkLimitError 7%nat IO.Read 13 5))])
      (Error_to_error
         (mkError 3 (LimitErr (mkLimitError 7%nat IO.Read 13 5)) [])).
Proof.
  apply (proj1 (X13_Is_compares_causes
                  (mkError 0 io_EOF [])
                  (mkError 2 (LimitErr (mkLimitError 7%nat IO.Read 13 5))
                     [io_EOF])
                  (mkError 3 (LimitErr (mkLimitError 7%nat IO.Read 13 5)) [])
                  (JoinError
                     [io_EOF;
                      MakeError 1
                        (LimitErr (mkLimitError 7%nat IO.Read 13 5))]))).
  reflexivity.
Defined.

End Runs2.
